(** * Gemini Image Enhancer: the record store, the enhancement client,
      the batch orchestrator and the archive assembler

    A shallow embedding of [App.tsx] (the [App] component's handlers), of
    [services/geminiService.ts] ([enhanceImage]), of
    [components/ImageCard.tsx] ([handleDownload]) and of [types.ts].

    React state ([useState]) is modelled by explicit state passing; the
    browser, the clock, the process configuration, the remote service and
    JSZip are oracles, the fields of an environment record [Env].  Every
    effect a handler performs is appended to a log, so that statements
    about what is or is not attempted (a network call, a download, a flag
    write) are statements about that log.  A handler runs from one state
    to the next; where it awaits the remote service, the records uploaded
    meanwhile are given as a parameter and join the store there. *)

From Stdlib Require Import List String Ascii Bool Arith Lia NArith.
From Stdlib Require Import DecimalString.
From Stdlib Require DecimalN.
Import ListNotations.
Local Open Scope string_scope.
Local Open Scope list_scope.

Set Implicit Arguments.

(* ================================================================== *)
(** ** JavaScript strings *)

Module Js.

(** Truthiness of a JS string: every string but the empty one. *)
Definition truthy (s : string) : bool :=
  match s with EmptyString => false | String _ _ => true end.

(** Truthiness of [string | null] and of [string | undefined]. *)
Definition truthy_opt (o : option string) : bool :=
  match o with None => false | Some s => truthy s end.

(** [s.split(sep)] for a one-character separator: the pieces between
    the occurrences of [sep], in order; never the empty list. *)
Fixpoint split (sep : ascii) (s : string) : list string :=
  match s with
  | EmptyString => [EmptyString]
  | String c s' =>
      if Ascii.eqb c sep then EmptyString :: split sep s'
      else match split sep s' with
           | [] => [String c EmptyString]
           | piece :: pieces => String c piece :: pieces
           end
  end.

(** [l.join(sep)]. *)
Definition join (sep : string) (l : list string) : string :=
  String.concat sep l.

(** [l.slice(0, -1)]: everything but the last element. *)
Definition slice_0_m1 (A : Type) (l : list A) : list A := removelast l.

(** [s.startsWith(p)]. *)
Definition startsWith (p s : string) : bool := String.prefix p s.

(** The character [c] does not occur in [s]. *)
Fixpoint lacks (c : ascii) (s : string) : bool :=
  match s with
  | EmptyString => true
  | String d s' => negb (Ascii.eqb d c) && lacks c s'
  end.

(** The longest prefix of [s] without [c]. *)
Fixpoint upto (c : ascii) (s : string) : string :=
  match s with
  | EmptyString => EmptyString
  | String d s' => if Ascii.eqb d c then EmptyString else String d (upto c s')
  end.

(** What follows the first [c] of [s], or [None] when [s] has no [c]. *)
Fixpoint after (c : ascii) (s : string) : option string :=
  match s with
  | EmptyString => None
  | String d s' => if Ascii.eqb d c then Some s' else after c s'
  end.

(** Decimal rendering of a number inside a template literal. *)
Definition of_number (n : N) : string :=
  NilEmpty.string_of_uint (N.to_uint n).

End Js.

(* ================================================================== *)
(** ** types.ts *)

Inductive ImageFileStatus : Type :=
| IDLE        (* 'Waiting'   *)
| ENHANCING   (* 'Enhancing' *)
| SUCCESS     (* 'Success'   *)
| ERROR.      (* 'Error'     *)

Definition ImageFileStatus_eqb (a b : ImageFileStatus) : bool :=
  match a, b with
  | IDLE, IDLE | ENHANCING, ENHANCING | SUCCESS, SUCCESS | ERROR, ERROR => true
  | _, _ => false
  end.

(** The browser's [File]: its [name], its media [type], and its content,
    which only the reader oracle looks at. *)
Record File : Type := mkFile {
  name : string;
  type : string;
  bits : string
}.

(** [interface ImageFile]; [enhancedSrc : string | null] and the optional
    [error?: string] are options. *)
Record ImageFile : Type := mkImageFile {
  id : string;
  file : File;
  originalSrc : string;
  enhancedSrc : option string;
  status : ImageFileStatus;
  error : option string
}.

(** [{ ...img, status: s }] *)
Definition with_status (s : ImageFileStatus) (img : ImageFile) : ImageFile :=
  mkImageFile (id img) (file img) (originalSrc img) (enhancedSrc img) s (error img).

(** [{ ...img, status: SUCCESS, enhancedSrc }] *)
Definition with_success (src : string) (img : ImageFile) : ImageFile :=
  mkImageFile (id img) (file img) (originalSrc img) (Some src) SUCCESS (error img).

(** [{ ...img, status: ERROR, error: errorMessage }] *)
Definition with_error (msg : string) (img : ImageFile) : ImageFile :=
  mkImageFile (id img) (file img) (originalSrc img) (enhancedSrc img) ERROR (Some msg).

(* ================================================================== *)
(** ** File names of the downloads

    [ImageCard.tsx] and [App.tsx] each compute the name on their own;
    both computations are embedded, one per module. *)

(** [handleDownload] of [components/ImageCard.tsx]. *)
Module Card.

(** [image.file.name.split('.').slice(0, -1).join('.')] *)
Definition originalName (image : ImageFile) : string :=
  Js.join "." (Js.slice_0_m1 (Js.split "." (name (file image)))).

(** [let extension = image.file.type.split('/')[1] || 'png';
     if (extension === 'jpeg') extension = 'jpg';] *)
Definition extension (image : ImageFile) : string :=
  let extension :=
    match nth_error (Js.split "/" (type (file image))) 1 with
    | Some e => if Js.truthy e then e else "png"
    | None => "png"
    end in
  if String.eqb extension "jpeg" then "jpg" else extension.

(** [link.download = `${originalName}-enhanced.${extension}`] *)
Definition download (image : ImageFile) : string :=
  (originalName image ++ "-enhanced." ++ extension image)%string.

End Card.

(** The loop body of [handleDownloadAll] of [App.tsx]. *)
Module Archive.

(** [image.file.name.split('.').slice(0, -1).join('.')] *)
Definition originalName (image : ImageFile) : string :=
  Js.join "." (Js.slice_0_m1 (Js.split "." (name (file image)))).

(** [let extension = image.file.type.split('/')[1] || 'png';
     if (extension === 'jpeg') extension = 'jpg';] *)
Definition extension (image : ImageFile) : string :=
  let extension :=
    match nth_error (Js.split "/" (type (file image))) 1 with
    | Some e => if Js.truthy e then e else "png"
    | None => "png"
    end in
  if String.eqb extension "jpeg" then "jpg" else extension.

(** [zip.file(`${originalName}-enhanced.${extension}`, blob)] *)
Definition entry (image : ImageFile) : string :=
  (originalName image ++ "-enhanced." ++ extension image)%string.

End Archive.

(* ================================================================== *)
(** ** Values that cross an [await] *)

(** What a [throw] or a rejected promise carries: an [Error] object with
    its [message], or any other value ([error instanceof Error] is false). *)
Inductive Thrown : Type :=
| JsError (message : string)
| NotAnError.

(** A settled promise: what [await] gives back, or what it throws. *)
Inductive Settled (A : Type) : Type :=
| Resolved (a : A)
| Rejected (e : Thrown).
Arguments Resolved {A} a.
Arguments Rejected {A} e.

(** The part of a [GenerateContentResponse] that [enhanceImage] reads;
    every field it reaches through [?.] is optional. *)
Record InlineData : Type := mkInlineData {
  data : option string;
  mimeType : option string
}.

Record Part : Type := mkPart {
  text : option string;
  inlineData : option InlineData
}.

Record Content : Type := mkContent { parts : option (list Part) }.
Record Candidate : Type := mkCandidate { content : option Content }.
Record GenerateContentResponse : Type :=
  mkResponse { candidates : option (list Candidate) }.

(** The three updates [enhanceSingleImage] applies to a record. *)
Inductive Patch : Type :=
| ToEnhancing                              (* { ...img, status: ENHANCING } *)
| ToSuccess (enhancedSrc : string)         (* { ...img, status: SUCCESS, enhancedSrc } *)
| ToError (errorMessage : string).         (* { ...img, status: ERROR, error } *)

Definition apply_patch (p : Patch) (img : ImageFile) : ImageFile :=
  match p with
  | ToEnhancing => with_status ENHANCING img
  | ToSuccess src => with_success src img
  | ToError msg => with_error msg img
  end.

Definition patch_status (p : Patch) : ImageFileStatus :=
  match p with
  | ToEnhancing => ENHANCING
  | ToSuccess _ => SUCCESS
  | ToError _ => ERROR
  end.

(** The effects of the handlers, in the order they happen. *)
Inductive Event : Type :=
| EvAppend (newImageFiles : list ImageFile)   (* setImages(prev => [...prev, ...new]) *)
| EvUpdate (id : string) (p : Patch)          (* setImages(prev => prev.map(...)) *)
| EvIsProcessing (b : bool)                   (* setIsProcessing(b) *)
| EvIsZipping (b : bool)                      (* setIsZipping(b) *)
| EvGenerateContent (data : option string) (mimeType : string)
                                              (* ai.models.generateContent: the network call *)
| EvConsoleError (what : string)              (* console.error *)
| EvFetch (url : string)                      (* fetch(image.enhancedSrc) *)
| EvGenerateAsync (entries : list (string * string))
                                              (* zip.generateAsync *)
| EvDownload (download href : string).        (* link.click() *)

(** The component's state and the log of its effects. *)
Record State : Type := mkState {
  images : list ImageFile;
  isProcessing : bool;
  isZipping : bool;
  calls : nat;          (* remote calls issued so far *)
  ticks : nat;          (* readings of the clock so far *)
  log : list Event
}.

(** What lies outside the repository. *)
Record Env : Type := mkEnv {
  (** [process.env.API_KEY] *)
  API_KEY : option string;
  (** [new GoogleGenAI(..)] and [ai.models.generateContent(..)]: the
      outcome of the n-th remote call, given the image data and type. *)
  generateContent : nat -> option string -> string -> Settled GenerateContentResponse;
  (** [FileReader.readAsDataURL]: [onload] resolves, [onerror] rejects. *)
  readAsDataURL : File -> Settled string;
  (** [Date.now()], by the number of earlier readings. *)
  Date_now : nat -> N;
  (** [fetch(url)] followed by [response.blob()]. *)
  fetch : string -> Settled string;
  (** [zip.generateAsync({ type: 'blob' })] on the entries of the archive. *)
  generateAsync : list (string * string) -> Settled string
}.

(* ================================================================== *)
(** ** A state monad for the handlers *)

Definition M (A : Type) : Type := State -> A * State.

Definition ret (A : Type) (a : A) : M A := fun s => (a, s).

Definition bind (A B : Type) (m : M A) (k : A -> M B) : M B :=
  fun s => let (a, s') := m s in k a s'.

Declare Scope handler_scope.
Delimit Scope handler_scope with handler.
Notation "x <- m ;; k" := (bind m (fun x => k))
  (at level 61, m at next level, right associativity) : handler_scope.
Notation "m ;; k" := (bind m (fun _ => k))
  (at level 61, right associativity) : handler_scope.
Local Open Scope handler_scope.

Definition emit (e : Event) : M unit :=
  fun s => (tt, mkState (images s) (isProcessing s) (isZipping s)
                        (calls s) (ticks s) (log s ++ [e])).

(** [setImages(f)] with a functional update. *)
Definition setImages (f : list ImageFile -> list ImageFile) : M unit :=
  fun s => (tt, mkState (f (images s)) (isProcessing s) (isZipping s)
                        (calls s) (ticks s) (log s)).

Definition setIsProcessing (b : bool) : M unit :=
  fun s => (tt, mkState (images s) b (isZipping s)
                        (calls s) (ticks s) (log s ++ [EvIsProcessing b])).

Definition setIsZipping (b : bool) : M unit :=
  fun s => (tt, mkState (images s) (isProcessing s) b
                        (calls s) (ticks s) (log s ++ [EvIsZipping b])).

Definition next_call : M nat :=
  fun s => (calls s, mkState (images s) (isProcessing s) (isZipping s)
                             (S (calls s)) (ticks s) (log s)).

Definition next_tick : M nat :=
  fun s => (ticks s, mkState (images s) (isProcessing s) (isZipping s)
                             (calls s) (S (ticks s)) (log s)).

(** Run a handler for its final state. *)
Definition exec (A : Type) (m : M A) (s : State) : State := snd (m s).

(** The component at rest with the records [imgs], nothing logged yet. *)
Definition mounted (imgs : list ImageFile) : State :=
  mkState imgs false false 0 0 [].

(* ================================================================== *)
(** ** The handlers *)

Section Handlers.

Variable env : Env.

(** *** services/geminiService.ts *)

(** [response.candidates?.[0]?.content?.parts ?? []] *)
Definition response_parts (response : GenerateContentResponse) : list Part :=
  match candidates response with
  | Some (candidate :: _) =>
      match content candidate with
      | Some c => match parts c with Some ps => ps | None => [] end
      | None => []
      end
  | _ => []
  end.

(** [part.inlineData?.data], as the condition of an [if]. *)
Definition image_payload (part : Part) : option string :=
  match inlineData part with
  | Some d => match data d with
              | Some payload => if Js.truthy payload then Some payload else None
              | None => None
              end
  | None => None
  end.

(** [for (const part of parts) if (part.inlineData?.data) return ...] *)
Fixpoint first_payload (ps : list Part) : option string :=
  match ps with
  | [] => None
  | part :: rest =>
      match image_payload part with
      | Some payload => Some payload
      | None => first_payload rest
      end
  end.

(** [setImages(prev => [...prev, ...newImageFiles])], the closing
    statement of [handleFileChange]. *)
Definition commitImages (newImageFiles : list ImageFile) : M unit :=
  emit (EvAppend newImageFiles) ;;
  setImages (fun prev => prev ++ newImageFiles).

(** While a handler is suspended on the network, a [handleFileChange]
    that runs meanwhile may commit the records [arriving]. *)
Definition suspended (arriving : list ImageFile) : M unit :=
  match arriving with
  | [] => ret tt
  | _ :: _ => commitImages arriving
  end.

(** The [catch] clause of [enhanceImage]. *)
Definition enhanceImage_catch (e : Thrown) : M (Settled string) :=
  emit (EvConsoleError "Error enhancing image:") ;;
  match e with
  | JsError message =>
      ret (Rejected (JsError ("Failed to enhance image: " ++ message)%string))
  | NotAnError =>
      ret (Rejected (JsError "An unknown error occurred during image enhancement."))
  end.

(** [enhanceImage(base64Data, mimeType)].  [arriving] are the records
    uploaded while the remote call is in flight. *)
Definition enhanceImage (arriving : list ImageFile)
    (base64Data : option string) (mimeType : string) : M (Settled string) :=
  if negb (Js.truthy_opt (API_KEY env)) then
    ret (Rejected (JsError "API key not found in environment variables."))
  else
    emit (EvGenerateContent base64Data mimeType) ;;
    n <- next_call ;;
    suspended arriving ;;
    match generateContent env n base64Data mimeType with
    | Rejected e => enhanceImage_catch e
    | Resolved response =>
        match first_payload (response_parts response) with
        | Some payload => ret (Resolved payload)
        | None =>
            enhanceImage_catch
              (JsError "No enhanced image found in the API response.")
        end
    end.

(** *** App.tsx *)

(** [dataUrl.split(',')[1]]; [undefined] when there is no comma. *)
Definition fileToBase64 (dataUrl : string) : option string :=
  nth_error (Js.split "," dataUrl) 1.

(** [setImages(prev => prev.map(img => img.id === id ? patched : img))] *)
Definition patch_where (id_ : string) (p : Patch)
    (prev : list ImageFile) : list ImageFile :=
  map (fun img => if String.eqb (id img) id_ then apply_patch p img else img) prev.

Definition updateImage (id_ : string) (p : Patch) : M unit :=
  emit (EvUpdate id_ p) ;;
  setImages (patch_where id_ p).

(** The body of the loop of [handleFileChange], from the file at hand
    to the end of the list; a rejected read leaves the function. *)
Fixpoint readFiles (files : list File) (newImageFiles : list ImageFile)
    : M (Settled (list ImageFile)) :=
  match files with
  | [] => ret (Resolved newImageFiles)
  | file_ :: rest =>
      if Js.startsWith "image/" (type file_) then
        match readAsDataURL env file_ with
        | Rejected e => ret (Rejected e)
        | Resolved dataUrl =>
            t <- next_tick ;;
            readFiles rest
              (newImageFiles ++
               [mkImageFile (name file_ ++ "-" ++ Js.of_number (Date_now env t))%string
                            file_ dataUrl None IDLE None])
        end
      else readFiles rest newImageFiles
  end.

(** [handleFileChange(files)]; [None] is [null]. *)
Definition handleFileChange (files : option (list File)) : M (Settled unit) :=
  match files with
  | None => ret (Resolved tt)
  | Some files_ =>
      r <- readFiles files_ [] ;;
      match r with
      | Rejected e => ret (Rejected e)
      | Resolved newImageFiles =>
          commitImages newImageFiles ;; ret (Resolved tt)
      end
  end.

(** [enhanceSingleImage(id)] of the render whose [images] is [images_]. *)
Definition enhanceSingleImage (images_ : list ImageFile) (id_ : string)
    (arriving : list ImageFile) : M unit :=
  match find (fun img => String.eqb (id img) id_) images_ with
  | None => ret tt
  | Some imageToEnhance =>
      updateImage id_ ToEnhancing ;;
      let base64 := fileToBase64 (originalSrc imageToEnhance) in
      r <- enhanceImage arriving base64 (type (file imageToEnhance)) ;;
      match r with
      | Resolved enhancedBase64 =>
          let enhancedSrc_ :=
            ("data:" ++ type (file imageToEnhance) ++ ";base64," ++ enhancedBase64)%string in
          updateImage id_ (ToSuccess enhancedSrc_)
      | Rejected e =>
          emit (EvConsoleError "Enhancement failed for") ;;
          let errorMessage :=
            match e with
            | JsError message => message
            | NotAnError => "An unknown error occurred."
            end in
          updateImage id_ (ToError errorMessage)
      end
  end.

Definition isIdle (img : ImageFile) : bool :=
  ImageFileStatus_eqb (status img) IDLE.

(** The [for ... of idleImages] loop of [enhanceAllImages];
    [arrivals] lists, per iteration, the records uploaded meanwhile. *)
Fixpoint enhanceEach (images_ idleImages : list ImageFile)
    (arrivals : list (list ImageFile)) : M unit :=
  match idleImages with
  | [] => ret tt
  | image :: rest =>
      enhanceSingleImage images_ (id image) (hd [] arrivals) ;;
      enhanceEach images_ rest (tl arrivals)
  end.

(** [enhanceAllImages()] of the render whose [images] is [images_]. *)
Definition enhanceAllImages (images_ : list ImageFile)
    (arrivals : list (list ImageFile)) : M unit :=
  setIsProcessing true ;;
  let idleImages := filter isIdle images_ in
  enhanceEach images_ idleImages arrivals ;;
  setIsProcessing false.

(** A click on "Enhance All": the handler of the current render. *)
Definition clickEnhanceAll (arrivals : list (list ImageFile)) : M unit :=
  fun s => enhanceAllImages (images s) arrivals s.

(** [img.status === SUCCESS && img.enhancedSrc] *)
Definition isSuccessful (img : ImageFile) : bool :=
  ImageFileStatus_eqb (status img) SUCCESS && Js.truthy_opt (enhancedSrc img).

(** [zip.file(name, blob)]: JSZip keeps one entry per name.  For a name
    that holds a "/" JSZip also adds the entries of its folders; these
    are not part of this model, which is that of names without "/". *)
Fixpoint zip_file (entry : string) (blob : string)
    (zip : list (string * string)) : list (string * string) :=
  match zip with
  | [] => [(entry, blob)]
  | (n, b) :: rest =>
      if String.eqb n entry then (entry, blob) :: rest
      else (n, b) :: zip_file entry blob rest
  end.

(** The [for ... of successfulImages] loop of [handleDownloadAll]. *)
Fixpoint zipEach (successfulImages : list ImageFile)
    (zip : list (string * string)) : M (Settled (list (string * string))) :=
  match successfulImages with
  | [] => ret (Resolved zip)
  | image :: rest =>
      match enhancedSrc image with
      | Some src =>
          if Js.truthy src then
            emit (EvFetch src) ;;
            match fetch env src with
            | Rejected e => ret (Rejected e)
            | Resolved blob =>
                zipEach rest (zip_file (Archive.entry image) blob zip)
            end
          else zipEach rest zip
      | None => zipEach rest zip
      end
  end.

(** The [try] block of [handleDownloadAll]. *)
Definition handleDownloadAll_try (successfulImages : list ImageFile)
    : M (Settled unit) :=
  r <- zipEach successfulImages [] ;;
  match r with
  | Rejected e => ret (Rejected e)
  | Resolved zip =>
      emit (EvGenerateAsync zip) ;;
      match generateAsync env zip with
      | Rejected e => ret (Rejected e)
      | Resolved content_ =>
          emit (EvDownload "enhanced-images.zip" content_) ;;
          ret (Resolved tt)
      end
  end.

(** [handleDownloadAll()] of the render whose [images] is [images_]. *)
Definition handleDownloadAll (images_ : list ImageFile) : M unit :=
  let successfulImages := filter isSuccessful images_ in
  if Nat.eqb (List.length successfulImages) 0 then ret tt
  else
    setIsZipping true ;;
    r <- handleDownloadAll_try successfulImages ;;
    match r with
    | Rejected _ => emit (EvConsoleError "Failed to create zip file")
    | Resolved _ => ret tt
    end ;;
    setIsZipping false.

(** A click on "Download All": the handler of the current render. *)
Definition clickDownloadAll : M unit :=
  fun s => handleDownloadAll (images s) s.

(** *** components/ImageCard.tsx *)

(** [handleDownload()] of the card showing [image]. *)
Definition handleDownload (image : ImageFile) : M unit :=
  match enhancedSrc image with
  | Some src =>
      if Js.truthy src then emit (EvDownload (Card.download image) src)
      else ret tt
  | None => ret tt
  end.

End Handlers.

(* ================================================================== *)
(** ** The properties, as definitions *)

Module Spec.

(** *** File names *)

(** The subtype of a media type: what follows its first "/". *)
Definition subtype (mediaType : string) : string :=
  match Js.after "/" mediaType with
  | Some rest => rest
  | None => EmptyString
  end.

(** The extension as claimed: the subtype, [jpeg] written [jpg]. *)
Definition claimed_extension (mediaType : string) : string :=
  if String.eqb (subtype mediaType) "jpeg" then "jpg" else subtype mediaType.

(** The extension as computed: the subtype up to a further "/", [png]
    when that is empty, [jpeg] written [jpg]. *)
Definition extension (mediaType : string) : string :=
  let sub := Js.upto "/" (subtype mediaType) in
  if Js.truthy sub then
    if String.eqb sub "jpeg" then "jpg" else sub
  else "png".

(** What precedes the last [c] of [s]; empty when [s] has no [c]. *)
Fixpoint before_last (c : ascii) (s : string) : string :=
  match s with
  | EmptyString => EmptyString
  | String d s' => if Js.lacks c s' then EmptyString
                   else String d (before_last c s')
  end.

(** The base name of a file name: everything before its last dot. *)
Definition basename (fileName : string) : string := before_last "." fileName.

(** [{originalBaseName}-enhanced.{ext}] *)
Definition enhanced_name (ext : string -> string) (image : ImageFile) : string :=
  (basename (name (file image)) ++ "-enhanced." ++ ext (type (file image)))%string.

(** *** The enhancement client *)

(** The credential is configured. *)
Definition configured (env : Env) : bool := Js.truthy_opt (API_KEY env).



(** What the client gives back on its [n]-th remote call. *)
Definition client_outcome (env : Env) (n : nat)
    (base64Data : option string) (mimeType_ : string) : Settled string :=
  if configured env then
    match generateContent env n base64Data mimeType_ with
    | Resolved response =>
        match first_payload (response_parts response) with
        | Some payload => Resolved payload
        | None =>
            Rejected (JsError
              "Failed to enhance image: No enhanced image found in the API response.")
        end
    | Rejected (JsError message) =>
        Rejected (JsError ("Failed to enhance image: " ++ message)%string)
    | Rejected NotAnError =>
        Rejected (JsError "An unknown error occurred during image enhancement.")
    end
  else Rejected (JsError "API key not found in environment variables.").

(** *** Traces *)

(** The record updates of a trace: which id was set to which status. *)
Definition updates (evs : list Event) : list (string * ImageFileStatus) :=
  flat_map (fun e => match e with
                     | EvUpdate i p => [(i, patch_status p)]
                     | _ => []
                     end) evs.

(** The network calls of a trace. *)
Definition network_calls (evs : list Event) : list (option string * string) :=
  flat_map (fun e => match e with
                     | EvGenerateContent d m => [(d, m)]
                     | _ => []
                     end) evs.

(** The records appended along a trace. *)
Definition appended (evs : list Event) : list ImageFile :=
  flat_map (fun e => match e with
                     | EvAppend new => new
                     | _ => []
                     end) evs.

(** The downloads of a trace. *)
Definition downloads (evs : list Event) : list (string * string) :=
  flat_map (fun e => match e with
                     | EvDownload n h => [(n, h)]
                     | _ => []
                     end) evs.

(** The packaging attempts of a trace. *)
Definition packagings (evs : list Event) : list (list (string * string)) :=
  flat_map (fun e => match e with
                     | EvGenerateAsync z => [z]
                     | _ => []
                     end) evs.

(** The writes to the zipping flag along a trace. *)
Definition zipping_writes (evs : list Event) : list bool :=
  flat_map (fun e => match e with
                     | EvIsZipping b => [b]
                     | _ => []
                     end) evs.

(** *** One enhancement *)

Definition arrival (arriving : list ImageFile) : list Event :=
  match arriving with
  | [] => []
  | _ :: _ => [EvAppend arriving]
  end.

(** Records can only arrive while a remote call is in flight. *)
Definition in_flight (env : Env) (arriving : list ImageFile) : list ImageFile :=
  if configured env then arriving else [].

Definition client_events (env : Env) (n : nat) (arriving : list ImageFile)
    (base64Data : option string) (mimeType_ : string) : list Event :=
  if configured env then
    EvGenerateContent base64Data mimeType_ :: arrival arriving ++
    match client_outcome env n base64Data mimeType_ with
    | Resolved _ => []
    | Rejected _ => [EvConsoleError "Error enhancing image:"]
    end
  else [].

(** The terminal update of the enhancement of [image] on the [n]-th
    remote call. *)
Definition verdict (env : Env) (n : nat) (image : ImageFile) : Patch :=
  match client_outcome env n (fileToBase64 (originalSrc image)) (type (file image)) with
  | Resolved enhancedBase64 =>
      ToSuccess ("data:" ++ type (file image) ++ ";base64," ++ enhancedBase64)%string
  | Rejected (JsError message) => ToError message
  | Rejected NotAnError => ToError "An unknown error occurred."
  end.

Definition terminal (p : Patch) : Prop :=
  patch_status p = SUCCESS \/ patch_status p = ERROR.

Definition single_events (env : Env) (n : nat) (id_ : string)
    (image : ImageFile) (arriving : list ImageFile) : list Event :=
  EvUpdate id_ ToEnhancing ::
  client_events env n arriving (fileToBase64 (originalSrc image)) (type (file image)) ++
  match verdict env n image with
  | ToError _ => [EvConsoleError "Enhancement failed for"]
  | _ => []
  end ++
  [EvUpdate id_ (verdict env n image)].

Definition single_store (env : Env) (n : nat) (id_ : string)
    (image : ImageFile) (arriving : list ImageFile)
    (store : list ImageFile) : list ImageFile :=
  patch_where id_ (verdict env n image)
              (patch_where id_ ToEnhancing store ++ in_flight env arriving).

Definition calls_after (env : Env) (n : nat) : nat :=
  if configured env then S n else n.

(** *** The batch *)

(** [images.find(img => img.id === id)] *)
Definition lookup (images_ : list ImageFile) (id_ : string) : option ImageFile :=
  find (fun img => String.eqb (id img) id_) images_.

(** The trace of the loop over [idleImages], the first remote call of
    which is the [n]-th. *)
Fixpoint batch_events (env : Env) (n : nat) (images_ idleImages : list ImageFile)
    (arrivals : list (list ImageFile)) : list Event :=
  match idleImages with
  | [] => []
  | image :: rest =>
      match lookup images_ (id image) with
      | Some found =>
          single_events env n (id image) found (hd [] arrivals) ++
          batch_events env (calls_after env n) images_ rest (tl arrivals)
      | None => batch_events env n images_ rest (tl arrivals)
      end
  end.

(** The store the loop over [idleImages] leaves. *)
Fixpoint batch_store (env : Env) (n : nat) (images_ idleImages : list ImageFile)
    (arrivals : list (list ImageFile)) (store : list ImageFile) : list ImageFile :=
  match idleImages with
  | [] => store
  | image :: rest =>
      match lookup images_ (id image) with
      | Some found =>
          batch_store env (calls_after env n) images_ rest (tl arrivals)
            (single_store env n (id image) found (hd [] arrivals) store)
      | None => batch_store env n images_ rest (tl arrivals) store
      end
  end.

(** The number of remote calls issued once the loop is over. *)
Fixpoint batch_calls (env : Env) (n : nat) (images_ idleImages : list ImageFile)
    : nat :=
  match idleImages with
  | [] => n
  | image :: rest =>
      match lookup images_ (id image) with
      | Some _ => batch_calls env (calls_after env n) images_ rest
      | None => batch_calls env n images_ rest
      end
  end.

(** Every record of the list is one of [images_]. *)
Definition known (images_ idleImages : list ImageFile) : Prop :=
  Forall (fun image => In image images_) idleImages.




(** *** The invariant of a record *)

Definition present (A : Type) (o : option A) : Prop := o <> None.

Definition record_ok (r : ImageFile) : Prop :=
  (present (enhancedSrc r) <-> status r = SUCCESS)
  /\ (present (error r) <-> status r = ERROR).

Definition store_ok (store : list ImageFile) : Prop := Forall record_ok store.

(** Neither enhanced bytes nor an error detail. *)
Definition blank (r : ImageFile) : Prop :=
  enhancedSrc r = None /\ error r = None.

(** Every record of the id is Idle. *)
Definition idle_at (id_ : string) (store : list ImageFile) : Prop :=
  forall r : ImageFile, In r store -> id r = id_ -> status r = IDLE.

(** A record as [handleFileChange] creates it. *)
Definition fresh (r : ImageFile) : Prop :=
  status r = IDLE /\ enhancedSrc r = None /\ error r = None.

(** *** The store along a trace *)

(** What an event does to the store. *)
Definition step (e : Event) (store : list ImageFile) : list ImageFile :=
  match e with
  | EvAppend newImageFiles => store ++ newImageFiles
  | EvUpdate i p => patch_where i p store
  | _ => store
  end.

(** The store after all the events of a trace. *)
Definition replay (evs : list Event) (store : list ImageFile) : list ImageFile :=
  fold_left (fun st e => step e st) evs store.

(** The store after each event of a trace, in order. *)
Fixpoint stores (store : list ImageFile) (evs : list Event)
    : list (list ImageFile) :=
  match evs with
  | [] => []
  | e :: rest => step e store :: stores (step e store) rest
  end.

(** *** The archive *)

(** The entries the loop of [handleDownloadAll] collects, or the
    failure of the first fetch that fails. *)
Fixpoint zip_entries (env : Env) (successfulImages : list ImageFile)
    (zip : list (string * string)) : Settled (list (string * string)) :=
  match successfulImages with
  | [] => Resolved zip
  | image :: rest =>
      if Js.truthy_opt (enhancedSrc image) then
        match enhancedSrc image with
        | Some src =>
            match fetch env src with
            | Rejected e => Rejected e
            | Resolved blob =>
                zip_entries env rest (zip_file (Archive.entry image) blob zip)
            end
        | None => zip_entries env rest zip
        end
      else zip_entries env rest zip
  end.

(** The fetches of that loop, up to the first that fails. *)
Fixpoint fetch_events (env : Env) (successfulImages : list ImageFile)
    : list Event :=
  match successfulImages with
  | [] => []
  | image :: rest =>
      if Js.truthy_opt (enhancedSrc image) then
        match enhancedSrc image with
        | Some src =>
            EvFetch src ::
            match fetch env src with
            | Rejected _ => []
            | Resolved _ => fetch_events env rest
            end
        | None => fetch_events env rest
        end
      else fetch_events env rest
  end.

(** What follows the fetches: the packaging and the download, or the
    report of the failure. *)
Definition packaging_events (env : Env) (successfulImages : list ImageFile)
    : list Event :=
  match zip_entries env successfulImages [] with
  | Rejected _ => [EvConsoleError "Failed to create zip file"]
  | Resolved zip =>
      EvGenerateAsync zip ::
      match generateAsync env zip with
      | Rejected _ => [EvConsoleError "Failed to create zip file"]
      | Resolved content_ => [EvDownload "enhanced-images.zip" content_]
      end
  end.

(** *** Uploads *)

(** [file.type.startsWith('image/')] *)
Definition isImage (f : File) : bool := Js.startsWith "image/" (type f).

(** Every image file of the list can be read. *)
Definition readable (env : Env) (files : list File) : Prop :=
  forall f : File, In f files -> isImage f = true ->
    exists dataUrl : string, readAsDataURL env f = Resolved dataUrl.
End Spec.

(* ================================================================== *)
(** ** Sample files, records and environments *)

Module Sample.

(** A reader that always succeeds, with the content as its own base64. *)
Definition reader (f : File) : Settled string :=
  Resolved ("data:" ++ type f ++ ";base64," ++ bits f)%string.

Definition part_text : Part := mkPart (Some "done") None.
Definition part_image (payload : string) : Part :=
  mkPart None (Some (mkInlineData (Some payload) (Some "image/png"))).

Definition response_of (ps : list Part) : GenerateContentResponse :=
  mkResponse (Some [mkCandidate (Some (mkContent (Some ps)))]).

(** The service answers every call with a text part and two images. *)
Definition env_ok : Env :=
  mkEnv (Some "key")
        (fun _ _ _ => Resolved (response_of [part_text; part_image "RU5I"; part_image "T1RI"]))
        reader (fun _ => 1000%N)
        (fun url => Resolved url) (fun _ => Resolved "PK").

(** No credential in the configuration. *)
Definition env_nokey : Env :=
  mkEnv None
        (fun _ _ _ => Resolved (response_of [part_image "RU5I"]))
        reader (fun _ => 1000%N)
        (fun url => Resolved url) (fun _ => Resolved "PK").

(** The first remote call succeeds, every later one fails. *)
Definition env_flaky : Env :=
  mkEnv (Some "key")
        (fun n _ _ => match n with
                      | O => Resolved (response_of [part_image "RU5I"])
                      | S _ => Rejected (JsError "503 Service Unavailable")
                      end)
        reader (fun _ => 1000%N)
        (fun url => Resolved url) (fun _ => Resolved "PK").

(** The first remote call fails, every later one succeeds. *)
Definition env_recovering : Env :=
  mkEnv (Some "key")
        (fun n _ _ => match n with
                      | O => Rejected (JsError "503 Service Unavailable")
                      | S _ => Resolved (response_of [part_image "RU5I"])
                      end)
        reader (fun _ => 1000%N)
        (fun url => Resolved url) (fun _ => Resolved "PK").

(** A file with the media type "image/": an empty subtype. *)
Definition bare_file : File := mkFile "scan.raw" "image/" "UkFX".

Definition a_png : File := mkFile "a.png" "image/png" "QQ==".
Definition b_jpg : File := mkFile "b.jpg" "image/jpeg" "Qg==".
Definition a_png_again : File := mkFile "a.png" "image/png" "QUE=".
Definition notes_txt : File := mkFile "notes.txt" "text/plain" "Tg==".
Definition readme : File := mkFile "README" "image/png" "Ug==".

Definition idle_of (f : File) (stamp : string) : ImageFile :=
  mkImageFile (name f ++ "-" ++ stamp)%string f
              ("data:" ++ type f ++ ";base64," ++ bits f)%string None IDLE None.

Definition success_of (f : File) (stamp : string) (payload : string) : ImageFile :=
  with_success ("data:" ++ type f ++ ";base64," ++ payload)%string (idle_of f stamp).

(** A reader that fails on the file named [b.jpg]. *)
Definition picky_reader (f : File) : Settled string :=
  if String.eqb (name f) "b.jpg" then Rejected NotAnError else reader f.

Definition env_unreadable : Env :=
  mkEnv (Some "key")
        (fun _ _ _ => Resolved (response_of [part_image "RU5I"]))
        picky_reader (fun _ => 1000%N)
        (fun url => Resolved url) (fun _ => Resolved "PK").

(** Every fetch of enhanced bytes fails. *)
Definition env_nofetch : Env :=
  mkEnv (Some "key")
        (fun _ _ _ => Resolved (response_of [part_image "RU5I"]))
        reader (fun _ => 1000%N)
        (fun _ => Rejected (JsError "Failed to fetch")) (fun _ => Resolved "PK").

(** The packaging fails. *)
Definition env_nozip : Env :=
  mkEnv (Some "key")
        (fun _ _ _ => Resolved (response_of [part_image "RU5I"]))
        reader (fun _ => 1000%N)
        (fun url => Resolved url) (fun _ => Rejected (JsError "out of memory")).
End Sample.

(* ================================================================== *)
(** ** What the components render *)

Module View.

(** [img.status === ImageFileStatus.SUCCESS] *)
Definition isSuccess (img : ImageFile) : bool :=
  ImageFileStatus_eqb (status img) SUCCESS.

(** [useMemo(() => images.filter(img => img.status === IDLE).length)] *)
Definition idleImageCount (images_ : list ImageFile) : nat :=
  List.length (filter isIdle images_).

(** [useMemo(() => images.filter(img => img.status === SUCCESS).length)] *)
Definition successfulImageCount (images_ : list ImageFile) : nat :=
  List.length (filter isSuccess images_).

(** [disabled={isProcessing || idleImageCount === 0}] of "Enhance All". *)
Definition enhanceAllDisabled (s : State) : bool :=
  isProcessing s || Nat.eqb (idleImageCount (images s)) 0.

(** [disabled={isZipping || successfulImageCount === 0}] of "Download All". *)
Definition downloadAllDisabled (s : State) : bool :=
  isZipping s || Nat.eqb (successfulImageCount (images s)) 0.

(** What an [ImageCard] puts beside the original image, and its button. *)
Inductive Element : Type :=
| Slider (original enhanced : string)   (* the comparison slider *)
| Spinner                               (* <Spinner /> *)
| Failure (detail : option string)      (* "Enhancement Failed", {image.error} *)
| Ready                                 (* "Ready to enhance" *)
| DownloadButton.                       (* <button onClick={handleDownload}> *)

(** The body of the card: the slider when
    [image.status === SUCCESS && image.enhancedSrc], else the three
    conditionals of the "Enhanced" panel. *)
Definition body (image : ImageFile) : list Element :=
  if isSuccess image && Js.truthy_opt (enhancedSrc image) then
    match enhancedSrc image with
    | Some src => [Slider (originalSrc image) src]
    | None => []
    end
  else
    (if ImageFileStatus_eqb (status image) ENHANCING then [Spinner] else []) ++
    (if ImageFileStatus_eqb (status image) ERROR then [Failure (error image)] else []) ++
    (if ImageFileStatus_eqb (status image) IDLE then [Ready] else []).

(** The foot of the card: [{image.status === SUCCESS && <button ...>}]. *)
Definition foot (image : ImageFile) : list Element :=
  if isSuccess image then [DownloadButton] else [].

End View.

(* ================================================================== *)
(** ** What the store keeps *)

Module Store.

(** What identifies a record and its source: never written after the
    record is created. *)
Definition core (r : ImageFile) : string * File * string :=
  (id r, file r, originalSrc r).

(** A Success record has non-empty enhanced bytes. *)
Definition has_bytes (r : ImageFile) : Prop :=
  status r = SUCCESS -> Js.truthy_opt (enhancedSrc r) = true.

(** The enhanced sources of the records that have one. *)
Definition sources (imgs : list ImageFile) : list string :=
  flat_map (fun r => match enhancedSrc r with
                     | Some src => [src]
                     | None => []
                     end) imgs.

(** The fetches of a trace. *)
Definition fetches (evs : list Event) : list string :=
  flat_map (fun e => match e with
                     | EvFetch url => [url]
                     | _ => []
                     end) evs.

(** The console reports of a trace. *)
Definition reports (evs : list Event) : list string :=
  flat_map (fun e => match e with
                     | EvConsoleError what => [what]
                     | _ => []
                     end) evs.

(** The ids [handleFileChange] gives to the image files [files], the
    first of which reads the clock for the [t]-th time. *)
Fixpoint stamps (env : Env) (t : nat) (files : list File) : list string :=
  match files with
  | [] => []
  | f :: rest =>
      (name f ++ "-" ++ Js.of_number (Date_now env t))%string ::
      stamps env (S t) rest
  end.

(** The messages an enhancement can leave in a record. *)
Definition failure_detail (message : string) : Prop :=
  message = "API key not found in environment variables."
  \/ message = "An unknown error occurred during image enhancement."
  \/ exists cause : string,
       message = ("Failed to enhance image: " ++ cause)%string.

(** Every enhanced source of the list can be fetched. *)
Definition fetchable (env : Env) (imgs : list ImageFile) : Prop :=
  forall (r : ImageFile) (u : string),
    In r imgs -> enhancedSrc r = Some u ->
    exists blob : string, fetch env u = Resolved blob.

(** The entry and the blob of each record, in order. *)
Definition entries_of (env : Env) (imgs : list ImageFile)
    : list (string * string) :=
  flat_map (fun r => match enhancedSrc r with
                     | Some src =>
                         match fetch env src with
                         | Resolved blob => [(Archive.entry r, blob)]
                         | Rejected _ => []
                         end
                     | None => []
                     end) imgs.

End Store.

(* ================================================================== *)
(** ** More sample environments *)

Module Demo.

(** A clock that never gives the same reading twice. *)
Definition env_ticking : Env :=
  mkEnv (Some "key")
        (fun _ _ _ => Resolved (Sample.response_of [Sample.part_image "RU5I"]))
        Sample.reader (fun k => N.of_nat (1000 + k))
        (fun url => Resolved url) (fun _ => Resolved "PK").

(** The fetch of the enhanced bytes of [b.jpg] fails. *)
Definition env_second_fetch_fails : Env :=
  mkEnv (Some "key")
        (fun _ _ _ => Resolved (Sample.response_of [Sample.part_image "RU5I"]))
        Sample.reader (fun _ => 1000%N)
        (fun url => if String.eqb url "data:image/jpeg;base64,RU5I"
                    then Rejected (JsError "Failed to fetch")
                    else Resolved url)
        (fun _ => Resolved "PK").

End Demo.

Unset Implicit Arguments.

(* ================================================================== *)
(** * Strings: [split], [join] and the pieces of a name *)

Section Strings.

Variable sep : ascii.

Lemma split_not_nil (s : string) : Js.split sep s <> [].
Proof.
  induction s as [|c s IH]; simpl; [discriminate|].
  destruct (Ascii.eqb c sep); [discriminate|].
  destruct (Js.split sep s); discriminate.
Qed.

Lemma split_lacks (s : string) :
  Js.lacks sep s = true -> Js.split sep s = [s].
Proof.
  induction s as [|c s IH]; simpl; [reflexivity|].
  intros H. apply andb_true_iff in H as [Hc Hs].
  apply negb_true_iff in Hc. rewrite Hc, (IH Hs). reflexivity.
Qed.

Lemma split_head (s : string) :
  hd_error (Js.split sep s) = Some (Js.upto sep s).
Proof.
  induction s as [|c s IH]; simpl; [reflexivity|].
  destruct (Ascii.eqb c sep); [reflexivity|].
  destruct (Js.split sep s); simpl in *; [discriminate|].
  congruence.
Qed.

(** The second piece of a split is what lies between the first and the
    second separator. *)
Lemma split_second (s : string) :
  nth_error (Js.split sep s) 1 = option_map (Js.upto sep) (Js.after sep s).
Proof.
  induction s as [|c s IH]; simpl; [reflexivity|].
  destruct (Ascii.eqb c sep); simpl.
  - pose proof (split_head s) as H.
    destruct (Js.split sep s); simpl in *; congruence.
  - pose proof (split_not_nil s) as Hne.
    destruct (Js.split sep s); [contradiction|exact IH].
Qed.

Lemma split_app (a b : string) :
  Js.split sep (a ++ String sep b) = Js.split sep a ++ Js.split sep b.
Proof.
  induction a as [|c a IH]; simpl.
  - rewrite Ascii.eqb_refl. reflexivity.
  - destruct (Ascii.eqb c sep); [rewrite IH; reflexivity|].
    rewrite IH.
    pose proof (split_not_nil a) as Hne.
    destruct (Js.split sep a); [contradiction|reflexivity].
Qed.

Lemma join_split (s : string) :
  Js.join (String sep EmptyString) (Js.split sep s) = s.
Proof.
  unfold Js.join.
  induction s as [|c s IH]; simpl; [reflexivity|].
  pose proof (split_not_nil s) as Hne.
  destruct (Ascii.eqb c sep) eqn:E.
  - apply Ascii.eqb_eq in E. subst c.
    destruct (Js.split sep s) as [|p ps]; [contradiction|].
    change (String.concat (String sep "") ("" :: p :: ps))%string
      with (String sep (String.concat (String sep "") (p :: ps)))%string.
    rewrite IH. reflexivity.
  - destruct (Js.split sep s) as [|p ps]; [contradiction|].
    destruct ps as [|q qs]; simpl in *; congruence.
Qed.

(** Dropping the last piece and joining again gives what precedes the
    last separator. *)
Lemma join_init_split (base last : string) :
  Js.lacks sep last = true ->
  Js.join (String sep EmptyString)
          (Js.slice_0_m1 (Js.split sep (base ++ String sep last))) = base.
Proof.
  intros H. rewrite split_app, (split_lacks last H).
  unfold Js.slice_0_m1. rewrite removelast_last. apply join_split.
Qed.

End Strings.

Section StringsMore.

Variable sep : ascii.

Lemma before_last_lacks (s : string) :
  Js.lacks sep s = true -> Spec.before_last sep s = EmptyString.
Proof.
  destruct s as [|c s]; simpl; [reflexivity|].
  intros H. apply andb_true_iff in H as [_ Hs]. rewrite Hs. reflexivity.
Qed.

(** A string with a separator splits, in one way only, around its last
    separator. *)
Lemma last_separator (s : string) :
  Js.lacks sep s = false ->
  exists last : string,
    s = (Spec.before_last sep s ++ String sep last)%string
    /\ Js.lacks sep last = true.
Proof.
  induction s as [|c s IH]; simpl; [discriminate|].
  intros H. destruct (Js.lacks sep s) eqn:Hs.
  - rewrite andb_true_r in H. apply negb_false_iff, Ascii.eqb_eq in H.
    subst c. exists s. split; [reflexivity|assumption].
  - destruct (IH eq_refl) as (last & Heq & Hlast).
    exists last. split; [|assumption].
    simpl. rewrite <- Heq. reflexivity.
Qed.

(** [s.split(sep).slice(0, -1).join(sep)] is what precedes the last
    separator of [s]. *)
Lemma join_init_split_before_last (s : string) :
  Js.join (String sep EmptyString) (Js.slice_0_m1 (Js.split sep s))
  = Spec.before_last sep s.
Proof.
  destruct (Js.lacks sep s) eqn:H.
  - rewrite (split_lacks sep s H), (before_last_lacks s H). reflexivity.
  - destruct (last_separator s H) as (last & Heq & Hlast).
    rewrite Heq at 1. apply join_init_split. assumption.
Qed.

End StringsMore.

(* ================================================================== *)
(** * File names of the downloads *)

Lemma Card_originalName_basename (image : ImageFile) :
  Card.originalName image = Spec.basename (name (file image)).
Proof. apply (join_init_split_before_last "."). Qed.

Lemma Archive_originalName_basename (image : ImageFile) :
  Archive.originalName image = Spec.basename (name (file image)).
Proof. apply (join_init_split_before_last "."). Qed.

Lemma second_piece_extension (mediaType : string) :
  (let extension :=
     match nth_error (Js.split "/" mediaType) 1 with
     | Some e => if Js.truthy e then e else "png"
     | None => "png"
     end in
   if String.eqb extension "jpeg" then "jpg" else extension)%string
  = Spec.extension mediaType.
Proof.
  cbv zeta. rewrite split_second. unfold Spec.extension, Spec.subtype.
  destruct (Js.after "/" mediaType) as [rest|]; simpl; [|reflexivity].
  destruct (Js.truthy (Js.upto "/" rest)); reflexivity.
Qed.

Lemma Card_extension_spec (image : ImageFile) :
  Card.extension image = Spec.extension (type (file image)).
Proof. apply second_piece_extension. Qed.

Lemma Archive_extension_spec (image : ImageFile) :
  Archive.extension image = Spec.extension (type (file image)).
Proof. apply second_piece_extension. Qed.

Lemma Card_download_spec (image : ImageFile) :
  Card.download image = Spec.enhanced_name Spec.extension image.
Proof.
  unfold Card.download, Spec.enhanced_name.
  rewrite Card_originalName_basename, Card_extension_spec. reflexivity.
Qed.

Lemma Archive_entry_spec (image : ImageFile) :
  Archive.entry image = Spec.enhanced_name Spec.extension image.
Proof.
  unfold Archive.entry, Spec.enhanced_name.
  rewrite Archive_originalName_basename, Archive_extension_spec. reflexivity.
Qed.

Lemma handleDownload_log (image : ImageFile) (src : string) (s : State) :
  enhancedSrc image = Some src -> Js.truthy src = true ->
  log (exec (handleDownload image) s) = log s ++ [EvDownload (Card.download image) src].
Proof.
  intros Hsrc Ht. unfold handleDownload. rewrite Hsrc, Ht. reflexivity.
Qed.

Lemma zipEach_one (env : Env) (image : ImageFile) (src blob : string) (s : State) :
  enhancedSrc image = Some src -> Js.truthy src = true ->
  fetch env src = Resolved blob ->
  fst (zipEach env [image] [] s) = Resolved [(Archive.entry image, blob)].
Proof.
  intros Hsrc Ht Hf. cbn [zipEach]. rewrite Hsrc, Ht.
  unfold bind, emit. rewrite Hf. reflexivity.
Qed.

(** An archive over two successful records named [a.png] and [b.jpg]. *)
Lemma handleDownloadAll_a_b (env : Env) (a b : ImageFile)
    (srca srcb bloba blobb content_ : string) (s : State) :
  name (file a) = "a.png" -> type (file a) = "image/png" ->
  name (file b) = "b.jpg" -> type (file b) = "image/jpeg" ->
  status a = SUCCESS -> status b = SUCCESS ->
  enhancedSrc a = Some srca -> enhancedSrc b = Some srcb ->
  Js.truthy srca = true -> Js.truthy srcb = true ->
  fetch env srca = Resolved bloba -> fetch env srcb = Resolved blobb ->
  generateAsync env [("a-enhanced.png", bloba); ("b-enhanced.jpg", blobb)]
    = Resolved content_ ->
  log (exec (handleDownloadAll env [a; b]) s)
  = log s ++ [EvIsZipping true; EvFetch srca; EvFetch srcb;
              EvGenerateAsync [("a-enhanced.png", bloba); ("b-enhanced.jpg", blobb)];
              EvDownload "enhanced-images.zip" content_;
              EvIsZipping false].
Proof.
  intros Hna Hta Hnb Htb Hsa Hsb Hea Heb Hua Hub Hfa Hfb Hgen.
  unfold exec, handleDownloadAll, isSuccessful. cbn [filter].
  rewrite Hsa, Hsb, Hea, Heb. cbn [ImageFileStatus_eqb Js.truthy_opt andb].
  rewrite Hua, Hub. cbn [List.length Nat.eqb].
  unfold handleDownloadAll_try, bind, setIsZipping, emit, ret.
  cbn [zipEach]. rewrite Hea, Heb, Hua, Hub.
  unfold bind, emit. cbn. rewrite Hfa. cbn. rewrite Hfb.
  unfold Archive.entry, Archive.originalName, Archive.extension.
  rewrite Hna, Hta, Hnb, Htb. cbn. rewrite Hgen. cbn.
  repeat (rewrite <- app_assoc; cbn [app]). reflexivity.
Qed.

(** C6 (amended).  For every record whose enhanced bytes are present (as
    they are on a Success record), the name of the single-file download
    and the name of its archive entry are both
    [{originalBaseName}-enhanced.{ext}], where the base name is what
    precedes the last dot of the file name and [ext] is the subtype after
    the "/" of the media type, cut at a further "/", with [jpeg] written
    [jpg] and [png] taken when that subtype is empty; whenever the
    subtype is not empty and holds no "/" this is the subtype with [jpeg]
    written [jpg]; a record of media type [image/jpeg] gets [jpg]; and an
    archive over the Success records [a.png] and [b.jpg] holds exactly the
    entries [a-enhanced.png] and [b-enhanced.jpg]. *)
Theorem C6_enhanced_names
    (env : Env) (image : ImageFile) (src : string) (s : State) :
  enhancedSrc image = Some src -> Js.truthy src = true ->
  let expected := Spec.enhanced_name Spec.extension image in
  log (exec (handleDownload image) s) = log s ++ [EvDownload expected src]
  /\ (forall blob : string,
         fetch env src = Resolved blob ->
         fst (zipEach env [image] [] s) = Resolved [(expected, blob)])
  /\ (Js.truthy (Spec.subtype (type (file image))) = true ->
      Js.lacks "/" (Spec.subtype (type (file image))) = true ->
      expected = Spec.enhanced_name Spec.claimed_extension image)
  /\ (type (file image) = "image/jpeg" ->
      Spec.extension (type (file image)) = "jpg")
  /\ (forall (a b : ImageFile) (srca srcb bloba blobb content_ : string),
         name (file a) = "a.png" -> type (file a) = "image/png" ->
         name (file b) = "b.jpg" -> type (file b) = "image/jpeg" ->
         status a = SUCCESS -> status b = SUCCESS ->
         enhancedSrc a = Some srca -> enhancedSrc b = Some srcb ->
         Js.truthy srca = true -> Js.truthy srcb = true ->
         fetch env srca = Resolved bloba -> fetch env srcb = Resolved blobb ->
         generateAsync env [("a-enhanced.png", bloba); ("b-enhanced.jpg", blobb)]
           = Resolved content_ ->
         log (exec (handleDownloadAll env [a; b]) s)
         = log s ++ [EvIsZipping true; EvFetch srca; EvFetch srcb;
                     EvGenerateAsync [("a-enhanced.png", bloba);
                                      ("b-enhanced.jpg", blobb)];
                     EvDownload "enhanced-images.zip" content_;
                     EvIsZipping false]).
Proof.
  intros Hsrc Ht expected. subst expected.
  repeat split.
  - rewrite (handleDownload_log image src s Hsrc Ht), Card_download_spec. reflexivity.
  - intros blob Hf.
    rewrite (zipEach_one env image src blob s Hsrc Ht Hf), Archive_entry_spec. reflexivity.
  - intros Hne Hno. unfold Spec.enhanced_name. do 2 f_equal.
    unfold Spec.extension, Spec.claimed_extension.
    assert (Hup : Js.upto "/" (Spec.subtype (type (file image)))
                  = Spec.subtype (type (file image))).
    { pose proof (split_head "/" (Spec.subtype (type (file image)))) as Hh.
      rewrite (split_lacks "/" _ Hno) in Hh. simpl in Hh. congruence. }
    rewrite Hup, Hne. reflexivity.
  - intros Hty. rewrite Hty. reflexivity.
  - intros. eapply handleDownloadAll_a_b; eassumption.
Qed.

Lemma C6_enhanced_names_witness :
  let image := Sample.success_of Sample.b_jpg "1000" "RU5I" in
  let src := "data:image/jpeg;base64,RU5I" in
  log (exec (handleDownload image) (mounted [image]))
    = [EvDownload "b-enhanced.jpg" src]
  /\ fst (zipEach Sample.env_ok [image] [] (mounted [image]))
     = Resolved [("b-enhanced.jpg", src)].
Proof.
  intros image src.
  destruct (C6_enhanced_names Sample.env_ok image src (mounted [image])
              eq_refl eq_refl) as (Hd & Hz & _).
  split; [exact Hd|].
  apply (Hz src). reflexivity.
Defined.

(** C6, as claimed, fails on a record whose media type is ["image/"]:
    uploaded and enhanced, it is a Success record whose subtype is empty,
    and both names end in [.png], not in the empty subtype. *)
Lemma C6_counterexample :
  let s := exec (clickEnhanceAll Sample.env_ok [])
                (exec (handleFileChange Sample.env_ok (Some [Sample.bare_file]))
                      (mounted [])) in
  exists image : ImageFile,
    images s = [image]
    /\ status image = SUCCESS
    /\ type (file image) = "image/"
    /\ Spec.enhanced_name Spec.claimed_extension image = "scan-enhanced."
    /\ log (exec (handleDownload image) (mounted [image]))
       = [EvDownload "scan-enhanced.png" "data:image/;base64,RU5I"]
    /\ Card.download image <> Spec.enhanced_name Spec.claimed_extension image
    /\ Archive.entry image <> Spec.enhanced_name Spec.claimed_extension image.
Proof.
  eexists. split; [vm_compute; reflexivity|].
  repeat split; try reflexivity; vm_compute; discriminate.
Qed.

(** C10.  A record whose file name holds no "." has the empty base name:
    its single download and its archive entry are both named
    [-enhanced.{ext}]; and in general both download paths take as base
    name what precedes the last dot of the file name. *)
Theorem C10_dotless_name
    (env : Env) (image : ImageFile) (src : string) (s : State) :
  Js.lacks "." (name (file image)) = true ->
  enhancedSrc image = Some src -> Js.truthy src = true ->
  Card.originalName image = EmptyString
  /\ Archive.originalName image = EmptyString
  /\ log (exec (handleDownload image) s)
     = log s ++ [EvDownload ("-enhanced." ++ Card.extension image) src]
  /\ (forall blob : string,
         fetch env src = Resolved blob ->
         fst (zipEach env [image] [] s)
         = Resolved [(("-enhanced." ++ Archive.extension image)%string, blob)])
  /\ Card.extension image = Archive.extension image
  /\ (forall other : ImageFile,
         Card.originalName other = Archive.originalName other
         /\ Card.download other = Archive.entry other
         /\ forall base last : string,
             name (file other) = (base ++ "." ++ last)%string ->
             Js.lacks "." last = true ->
             Card.originalName other = base).
Proof.
  intros Hdot Hsrc Ht.
  assert (Hc : Card.originalName image = EmptyString).
  { rewrite Card_originalName_basename. apply before_last_lacks. assumption. }
  assert (Ha : Archive.originalName image = EmptyString).
  { rewrite Archive_originalName_basename. apply before_last_lacks. assumption. }
  repeat split; try assumption.
  - rewrite (handleDownload_log image src s Hsrc Ht). unfold Card.download.
    rewrite Hc. reflexivity.
  - intros blob Hf. rewrite (zipEach_one env image src blob s Hsrc Ht Hf).
    unfold Archive.entry. rewrite Ha. reflexivity.
  - intros base last Hname Hlast. unfold Card.originalName.
    rewrite Hname. apply (join_init_split "."). assumption.
Qed.

Lemma C10_dotless_name_witness :
  let image := Sample.success_of Sample.readme "1000" "RU5I" in
  log (exec (handleDownload image) (mounted [image]))
    = [EvDownload "-enhanced.png" "data:image/png;base64,RU5I"]
  /\ fst (zipEach Sample.env_ok [image] [] (mounted [image]))
     = Resolved [("-enhanced.png", "data:image/png;base64,RU5I")].
Proof.
  intros image.
  destruct (C10_dotless_name Sample.env_ok image
              "data:image/png;base64,RU5I" (mounted [image])
              eq_refl eq_refl eq_refl) as (_ & _ & Hd & Hz & _).
  split; [exact Hd|].
  apply (Hz "data:image/png;base64,RU5I"). reflexivity.
Defined.

(* ================================================================== *)
(** * The enhancement client *)

(** Reduce the projections of an explicit state or pair. *)
Ltac state_simpl :=
  cbn [fst snd images isProcessing isZipping calls ticks log].



(** The client, as a function of the state it starts in. *)
Lemma enhanceImage_run (env : Env) (arriving : list ImageFile)
    (base64Data : option string) (mimeType_ : string) (s : State) :
  enhanceImage env arriving base64Data mimeType_ s
  = (Spec.client_outcome env (calls s) base64Data mimeType_,
     mkState (images s ++ Spec.in_flight env arriving)
             (isProcessing s) (isZipping s)
             (Spec.calls_after env (calls s)) (ticks s)
             (log s ++ Spec.client_events env (calls s) arriving base64Data mimeType_)).
Proof.
  destruct s as [imgs pr zp n t lg].
  unfold enhanceImage, Spec.client_outcome, Spec.client_events, Spec.in_flight,
    Spec.calls_after, Spec.client_outcome, Spec.configured.
  destruct (Js.truthy_opt (API_KEY env)); cbn [negb].
  - unfold bind, emit, next_call, suspended, commitImages, enhanceImage_catch,
      bind, emit, setImages, ret.
    cbn -[app].
    destruct arriving as [|a arriving];
      destruct (generateContent env n base64Data mimeType_) as [response|[message|]];
      try destruct (first_payload (response_parts response));
      cbn -[app];
      rewrite ?app_nil_r, <- ?app_assoc; reflexivity.
  - unfold ret. cbn. rewrite !app_nil_r. reflexivity.
Qed.




(* ================================================================== *)
(** * One enhancement *)

Lemma enhanceSingleImage_missing (env : Env) (images_ : list ImageFile)
    (id_ : string) (arriving : list ImageFile) (s : State) :
  Spec.lookup images_ id_ = None ->
  enhanceSingleImage env images_ id_ arriving s = (tt, s).
Proof.
  unfold Spec.lookup, enhanceSingleImage. intros H. rewrite H. reflexivity.
Qed.

(** [enhanceSingleImage], as a function of the state it starts in. *)
Lemma enhanceSingleImage_run (env : Env) (images_ : list ImageFile)
    (id_ : string) (arriving : list ImageFile) (s : State) (image : ImageFile) :
  Spec.lookup images_ id_ = Some image ->
  enhanceSingleImage env images_ id_ arriving s
  = (tt, mkState (Spec.single_store env (calls s) id_ image arriving (images s))
                 (isProcessing s) (isZipping s)
                 (Spec.calls_after env (calls s)) (ticks s)
                 (log s ++ Spec.single_events env (calls s) id_ image arriving)).
Proof.
  unfold Spec.lookup, enhanceSingleImage. intros H. rewrite H.
  unfold bind at 1. unfold updateImage, bind at 1, emit, setImages.
  state_simpl.
  unfold bind at 1. rewrite enhanceImage_run.
  state_simpl.
  unfold Spec.single_store, Spec.single_events, Spec.verdict.
  destruct (Spec.client_outcome env (calls s)
              (fileToBase64 (originalSrc image)) (type (file image)))
    as [enhancedBase64|[message|]];
    unfold updateImage, bind, emit, setImages;
    state_simpl;
    repeat (rewrite <- app_assoc; cbn [app]); reflexivity.
Qed.

Lemma verdict_terminal (env : Env) (n : nat) (image : ImageFile) :
  Spec.terminal (Spec.verdict env n image).
Proof.
  unfold Spec.terminal, Spec.verdict.
  destruct (Spec.client_outcome env n _ _) as [?|[?|]]; simpl; auto.
Qed.


Lemma network_calls_app (a b : list Event) :
  Spec.network_calls (a ++ b) = Spec.network_calls a ++ Spec.network_calls b.
Proof. apply flat_map_app. Qed.

Lemma appended_app (a b : list Event) :
  Spec.appended (a ++ b) = Spec.appended a ++ Spec.appended b.
Proof. apply flat_map_app. Qed.

Lemma appended_arrival (arriving : list ImageFile) :
  Spec.appended (Spec.arrival arriving) = arriving.
Proof. destruct arriving; simpl; rewrite ?app_nil_r; reflexivity. Qed.


Lemma network_calls_arrival (arriving : list ImageFile) :
  Spec.network_calls (Spec.arrival arriving) = [].
Proof. destruct arriving; reflexivity. Qed.


Lemma appended_client_events env n arriving b m :
  Spec.appended (Spec.client_events env n arriving b m) = Spec.in_flight env arriving.
Proof.
  unfold Spec.client_events, Spec.in_flight.
  destruct (Spec.configured env); [|reflexivity].
  change (Spec.appended (Spec.arrival arriving ++
            match Spec.client_outcome env n b m with
            | Resolved _ => []
            | Rejected _ => [EvConsoleError "Error enhancing image:"]
            end) = arriving).
  rewrite appended_app, appended_arrival.
  destruct (Spec.client_outcome env n b m); simpl; apply app_nil_r.
Qed.

Lemma network_calls_client_events env n arriving b m :
  Spec.network_calls (Spec.client_events env n arriving b m)
  = if Spec.configured env then [(b, m)] else [].
Proof.
  unfold Spec.client_events. destruct (Spec.configured env); [|reflexivity].
  change (((b, m) :: Spec.network_calls (Spec.arrival arriving ++
            match Spec.client_outcome env n b m with
            | Resolved _ => []
            | Rejected _ => [EvConsoleError "Error enhancing image:"]
            end)) = [(b, m)]).
  rewrite network_calls_app, network_calls_arrival.
  destruct (Spec.client_outcome env n b m); reflexivity.
Qed.


Lemma appended_single_events env n id_ image arriving :
  Spec.appended (Spec.single_events env n id_ image arriving)
  = Spec.in_flight env arriving.
Proof.
  unfold Spec.single_events.
  change (Spec.appended (?e :: ?l)) with (Spec.appended l).
  rewrite !appended_app, appended_client_events.
  destruct (Spec.verdict env n image); simpl; rewrite ?app_nil_r; reflexivity.
Qed.

Lemma network_calls_single_events env n id_ image arriving :
  Spec.network_calls (Spec.single_events env n id_ image arriving)
  = if Spec.configured env
    then [(fileToBase64 (originalSrc image), type (file image))] else [].
Proof.
  unfold Spec.single_events.
  change (Spec.network_calls (?e :: ?l)) with (Spec.network_calls l).
  rewrite !network_calls_app, network_calls_client_events.
  destruct (Spec.verdict env n image), (Spec.configured env); reflexivity.
Qed.

(* ================================================================== *)
(** * Updating the records of an id *)

Lemma apply_patch_id (p : Patch) (r : ImageFile) : id (apply_patch p r) = id r.
Proof. destruct p; reflexivity. Qed.

Lemma apply_patch_status (p : Patch) (r : ImageFile) :
  status (apply_patch p r) = patch_status p.
Proof. destruct p; reflexivity. Qed.

Lemma patch_where_app (i : string) (p : Patch) (a b : list ImageFile) :
  patch_where i p (a ++ b) = patch_where i p a ++ patch_where i p b.
Proof. apply map_app. Qed.

Lemma patch_where_length (i : string) (p : Patch) (l : list ImageFile) :
  List.length (patch_where i p l) = List.length l.
Proof. apply length_map. Qed.

Lemma patch_where_ids (i : string) (p : Patch) (l : list ImageFile) :
  map id (patch_where i p l) = map id l.
Proof.
  unfold patch_where. rewrite map_map. apply map_ext.
  intros r. destruct (String.eqb (id r) i); [apply apply_patch_id|reflexivity].
Qed.

(** Records of another id are left as they are, where they are. *)
Lemma patch_where_other (i : string) (p : Patch) (l : list ImageFile)
    (k : nat) (r : ImageFile) :
  nth_error l k = Some r -> id r <> i ->
  nth_error (patch_where i p l) k = Some r.
Proof.
  intros Hk Hne. unfold patch_where. rewrite nth_error_map, Hk. simpl.
  apply String.eqb_neq in Hne. rewrite Hne. reflexivity.
Qed.

(** Records of the id are patched, where they are. *)
Lemma patch_where_same (i : string) (p : Patch) (l : list ImageFile)
    (k : nat) (r : ImageFile) :
  nth_error l k = Some r -> id r = i ->
  nth_error (patch_where i p l) k = Some (apply_patch p r).
Proof.
  intros Hk He. unfold patch_where. rewrite nth_error_map, Hk. simpl.
  apply String.eqb_eq in He. rewrite He. reflexivity.
Qed.

Lemma In_patch_where (i : string) (p : Patch) (l : list ImageFile) (r : ImageFile) :
  In r (patch_where i p l) ->
  exists r0 : ImageFile,
    In r0 l /\ ((id r0 = i /\ r = apply_patch p r0) \/ (id r0 <> i /\ r = r0)).
Proof.
  unfold patch_where. rewrite in_map_iff. intros (r0 & Hr & Hin).
  exists r0. split; [assumption|].
  destruct (String.eqb (id r0) i) eqn:E.
  - left. apply String.eqb_eq in E. auto.
  - right. apply String.eqb_neq in E. auto.
Qed.


(* ================================================================== *)
(** * The store along a trace *)

Lemma replay_app (a b : list Event) (store : list ImageFile) :
  Spec.replay (a ++ b) store = Spec.replay b (Spec.replay a store).
Proof. apply fold_left_app. Qed.

Lemma stores_app (a b : list Event) (store : list ImageFile) :
  Spec.stores store (a ++ b)
  = Spec.stores store a ++ Spec.stores (Spec.replay a store) b.
Proof.
  revert store. induction a as [|e a IH]; intros store; simpl; [reflexivity|].
  rewrite IH. reflexivity.
Qed.

Lemma replay_arrival (arriving store : list ImageFile) :
  Spec.replay (Spec.arrival arriving) store = store ++ arriving.
Proof. destruct arriving; simpl; rewrite ?app_nil_r; reflexivity. Qed.

Lemma replay_client_events env n arriving b m (store : list ImageFile) :
  Spec.replay (Spec.client_events env n arriving b m) store
  = store ++ Spec.in_flight env arriving.
Proof.
  unfold Spec.client_events, Spec.in_flight.
  destruct (Spec.configured env); [|simpl; rewrite app_nil_r; reflexivity].
  change (Spec.replay (Spec.arrival arriving ++
            match Spec.client_outcome env n b m with
            | Resolved _ => []
            | Rejected _ => [EvConsoleError "Error enhancing image:"]
            end) store = store ++ arriving).
  rewrite replay_app, replay_arrival.
  destruct (Spec.client_outcome env n b m); reflexivity.
Qed.

(** The trace of one enhancement accounts for its store. *)
Lemma replay_single_events env n id_ image arriving (store : list ImageFile) :
  Spec.replay (Spec.single_events env n id_ image arriving) store
  = Spec.single_store env n id_ image arriving store.
Proof.
  unfold Spec.single_events, Spec.single_store.
  change (Spec.replay (?e :: ?l) store)
    with (Spec.replay l (patch_where id_ ToEnhancing store)).
  rewrite !replay_app, replay_client_events.
  destruct (Spec.verdict env n image); reflexivity.
Qed.

(** Along one enhancement the store is, in turn, the store with the
    record set to Enhancing, that store with the arrivals, and the store
    with the verdict. *)
Lemma stores_single_events env n id_ image arriving (store : list ImageFile)
    (P : list ImageFile -> Prop) :
  P (patch_where id_ ToEnhancing store) ->
  P (patch_where id_ ToEnhancing store ++ Spec.in_flight env arriving) ->
  P (Spec.single_store env n id_ image arriving store) ->
  Forall P (Spec.stores store (Spec.single_events env n id_ image arriving)).
Proof.
  intros H1 H2 H3.
  assert (Hclient : forall b m,
    Forall P (Spec.stores (patch_where id_ ToEnhancing store)
                          (Spec.client_events env n arriving b m))).
  { intros b m. unfold Spec.client_events, Spec.in_flight in *.
    destruct (Spec.configured env); [|constructor].
    simpl. constructor; [assumption|].
    rewrite stores_app, replay_arrival. apply Forall_app. split.
    - destruct arriving; simpl; [constructor|].
      constructor; [assumption|constructor].
    - destruct (Spec.client_outcome env n b m); simpl; [constructor|].
      constructor; [assumption|constructor]. }
  unfold Spec.single_events. cbn [Spec.stores Spec.step].
  constructor; [assumption|].
  rewrite stores_app, replay_client_events.
  apply Forall_app. split; [apply Hclient|].
  rewrite stores_app.
  apply Forall_app. split.
  - destruct (Spec.verdict env n image); cbn [Spec.stores Spec.step];
      try constructor; [assumption|constructor].
  - unfold Spec.single_store in H3.
    destruct (Spec.verdict env n image); cbn [Spec.stores Spec.step Spec.replay fold_left];
      (constructor; [assumption|constructor]).
Qed.

(* ================================================================== *)
(** * The missing credential *)

Lemma verdict_unconfigured (env : Env) (n : nat) (image : ImageFile) :
  Spec.configured env = false ->
  Spec.verdict env n image = ToError "API key not found in environment variables.".
Proof.
  intros H. unfold Spec.verdict, Spec.client_outcome. rewrite H. reflexivity.
Qed.

Lemma single_events_unconfigured (env : Env) (n : nat) (id_ : string)
    (image : ImageFile) (arriving : list ImageFile) :
  Spec.configured env = false ->
  Spec.single_events env n id_ image arriving
  = [EvUpdate id_ ToEnhancing; EvConsoleError "Enhancement failed for";
     EvUpdate id_ (ToError "API key not found in environment variables.")].
Proof.
  intros H. unfold Spec.single_events, Spec.client_events.
  rewrite verdict_unconfigured by exact H. rewrite H. reflexivity.
Qed.

(** C2 (amended).  When the credential is absent from the configuration,
    an enhancement sets its record to Enhancing first and then to Error,
    with the message "API key not found in environment variables.", and
    no network call is attempted: an Idle record goes from Idle through
    Enhancing to Error. *)
Theorem C2_missing_credential (env : Env) (images_ : list ImageFile)
    (id_ : string) (arriving : list ImageFile) (s : State) (image : ImageFile) :
  Spec.configured env = false ->
  Spec.lookup images_ id_ = Some image ->
  let s' := exec (enhanceSingleImage env images_ id_ arriving) s in
  let message := "API key not found in environment variables." in
  let trace := [EvUpdate id_ ToEnhancing;
                EvConsoleError "Enhancement failed for";
                EvUpdate id_ (ToError message)] in
  log s' = log s ++ trace
  /\ Spec.network_calls trace = []
  /\ calls s' = calls s
  /\ Spec.stores (images s) trace
     = [patch_where id_ ToEnhancing (images s);
        patch_where id_ ToEnhancing (images s);
        images s']
  /\ (forall (k : nat) (r : ImageFile),
         nth_error (images s) k = Some r -> id r = id_ -> status r = IDLE ->
         nth_error (patch_where id_ ToEnhancing (images s)) k
           = Some (with_status ENHANCING r)
         /\ nth_error (images s') k
            = Some (with_error message (with_status ENHANCING r))).
Proof.
  intros Hc Hl s' message trace.
  assert (Himg : images s'
                 = patch_where id_ (ToError message)
                     (patch_where id_ ToEnhancing (images s))).
  { unfold s', exec. rewrite (enhanceSingleImage_run env images_ id_ arriving s image Hl).
    cbn [snd images]. unfold Spec.single_store, Spec.in_flight.
    rewrite verdict_unconfigured by exact Hc. rewrite Hc, app_nil_r. reflexivity. }
  split; [|split; [|split; [|split]]].
  - unfold s', exec. rewrite (enhanceSingleImage_run env images_ id_ arriving s image Hl).
    cbn [snd log]. rewrite single_events_unconfigured by exact Hc. reflexivity.
  - reflexivity.
  - unfold s', exec. rewrite (enhanceSingleImage_run env images_ id_ arriving s image Hl).
    cbn [snd calls]. unfold Spec.calls_after. rewrite Hc. reflexivity.
  - rewrite Himg. reflexivity.
  - intros k r Hk Hid _. split.
    + apply (patch_where_same id_ ToEnhancing (images s) k r Hk Hid).
    + rewrite Himg.
      apply (patch_where_same id_ (ToError message)
               (patch_where id_ ToEnhancing (images s)) k
               (with_status ENHANCING r)).
      * apply (patch_where_same id_ ToEnhancing (images s) k r Hk Hid).
      * exact Hid.
Qed.

Lemma C2_missing_credential_witness :
  let r := Sample.idle_of Sample.a_png "1000" in
  let s' := exec (enhanceSingleImage Sample.env_nokey [r] (id r) []) (mounted [r]) in
  log s' = [EvUpdate (id r) ToEnhancing;
            EvConsoleError "Enhancement failed for";
            EvUpdate (id r) (ToError "API key not found in environment variables.")]
  /\ calls s' = 0.
Proof.
  intros r s'.
  destruct (C2_missing_credential Sample.env_nokey [r] (id r) []
              (mounted [r]) r eq_refl eq_refl)
    as (Hlog & _ & Hcalls & _).
  split; [exact Hlog|exact Hcalls].
Defined.

(** C2, as claimed, fails: without a credential an Idle record does enter
    Enhancing before it is set to Error. *)
Lemma C2_counterexample :
  let r := Sample.idle_of Sample.a_png "1000" in
  let s' := exec (clickEnhanceAll Sample.env_nokey []) (mounted [r]) in
  Spec.configured Sample.env_nokey = false
  /\ status r = IDLE
  /\ Spec.updates (log s') = [(id r, ENHANCING); (id r, ERROR)]
  /\ In [with_status ENHANCING r] (Spec.stores [r] (log s'))
  /\ Spec.network_calls (log s') = [].
Proof.
  repeat split; try reflexivity.
  vm_compute. right. left. reflexivity.
Qed.

(* ================================================================== *)
(** * Uploads *)

Lemma readFiles_run (env : Env) (files : list File) :
  Spec.readable env files ->
  forall (acc : list ImageFile) (s : State),
  exists newImageFiles : list ImageFile,
    readFiles env files acc s
    = (Resolved (acc ++ newImageFiles),
       mkState (images s) (isProcessing s) (isZipping s) (calls s)
               (ticks s + List.length newImageFiles) (log s))
    /\ map file newImageFiles = filter Spec.isImage files
    /\ Forall Spec.fresh newImageFiles.
Proof.
  induction files as [|f files IH]; intros Hread acc s.
  - exists []. destruct s. cbn. rewrite app_nil_r, Nat.add_0_r.
    repeat split. constructor.
  - assert (Hrest : Spec.readable env files).
    { intros g Hg. apply Hread. right. assumption. }
    cbn [readFiles filter].
    change (Spec.isImage f) with (Js.startsWith "image/" (type f)).
    destruct (Js.startsWith "image/" (type f)) eqn:Himg.
    + destruct (Hread f (or_introl eq_refl) Himg) as (dataUrl & Hd).
      rewrite Hd. unfold bind, next_tick.
      set (r := mkImageFile _ f dataUrl None IDLE None).
      destruct (IH Hrest (acc ++ [r])
                  (mkState (images s) (isProcessing s) (isZipping s) (calls s)
                           (S (ticks s)) (log s)))
        as (new & Hrun & Hfiles & Hfresh).
      exists (r :: new). rewrite Hrun. cbn [images isProcessing isZipping calls ticks log].
      split; [|split].
      * rewrite <- app_assoc. cbn [app List.length].
        rewrite Nat.add_succ_r. reflexivity.
      * cbn [map]. rewrite Hfiles. reflexivity.
      * constructor; [repeat split|assumption].
    + apply (IH Hrest).
Qed.

(** C5 (amended).  For every input file list all of whose image files can
    be read, each file whose media type begins with "image/" produces
    exactly one new record with status Idle appended to the Store, files
    of other media types produce none, and the appended records are in
    the relative order of the inputs. *)
Theorem C5_add_images (env : Env) (files : list File) (s : State) :
  Spec.readable env files ->
  let s' := exec (handleFileChange env (Some files)) s in
  exists newImageFiles : list ImageFile,
    images s' = images s ++ newImageFiles
    /\ map file newImageFiles = filter Spec.isImage files
    /\ Forall Spec.fresh newImageFiles
    /\ log s' = log s ++ [EvAppend newImageFiles]
    /\ fst (handleFileChange env (Some files) s) = Resolved tt.
Proof.
  intros Hread s'.
  destruct (readFiles_run env files Hread [] s) as (new & Hrun & Hfiles & Hfresh).
  exists new. unfold s', exec, handleFileChange, bind. rewrite Hrun.
  cbn. repeat split; assumption.
Qed.

Lemma C5_add_images_witness :
  let files := [Sample.a_png; Sample.notes_txt; Sample.b_jpg] in
  exists newImageFiles : list ImageFile,
    images (exec (handleFileChange Sample.env_ok (Some files)) (mounted []))
      = newImageFiles
    /\ map file newImageFiles = [Sample.a_png; Sample.b_jpg].
Proof.
  intros files.
  assert (Hread : Spec.readable Sample.env_ok files).
  { intros f _ _. eexists. reflexivity. }
  destruct (C5_add_images Sample.env_ok files (mounted []) Hread)
    as (new & Himg & Hfiles & _).
  exists new. split; [exact Himg|exact Hfiles].
Defined.

(** C5, as claimed, fails when a file cannot be read: the readable image
    [a.png] that precedes the unreadable one produces no record. *)
Lemma C5_counterexample :
  let files := [Sample.a_png; Sample.b_jpg] in
  let run := handleFileChange Sample.env_unreadable (Some files) (mounted []) in
  Spec.isImage Sample.a_png = true
  /\ readAsDataURL Sample.env_unreadable Sample.a_png
     = Resolved "data:image/png;base64,QQ=="
  /\ fst run = Rejected NotAnError
  /\ images (snd run) = []
  /\ log (snd run) = [].
Proof. repeat split. Qed.

(* ================================================================== *)
(** * Lists without duplicates *)

Lemma NoDup_map_filter (A B : Type) (g : A -> B) (f : A -> bool) (l : list A) :
  NoDup (map g l) -> NoDup (map g (filter f l)).
Proof.
  induction l as [|a l IH]; intros H; [constructor|].
  cbn [map] in H. inversion H as [|? ? Hnotin Hnodup]; subst.
  cbn [filter]. destruct (f a); [|apply IH; assumption].
  cbn [map]. constructor; [|apply IH; assumption].
  intros Hin. apply Hnotin. apply in_map_iff in Hin as (x & Hx & Hin).
  apply filter_In in Hin as [Hin _]. apply in_map_iff. exists x. auto.
Qed.

Lemma NoDup_map_inj (A B : Type) (g : A -> B) (l : list A) (a b : A) :
  NoDup (map g l) -> In a l -> In b l -> g a = g b -> a = b.
Proof.
  induction l as [|x l IH]; intros H Ha Hb Hg; [destruct Ha|].
  cbn [map] in H. inversion H as [|? ? Hnotin Hnodup]; subst.
  destruct Ha as [->|Ha], Hb as [->|Hb]; try reflexivity.
  - exfalso. apply Hnotin. rewrite Hg. apply in_map. assumption.
  - exfalso. apply Hnotin. rewrite <- Hg. apply in_map. assumption.
  - apply IH; assumption.
Qed.

(* ================================================================== *)
(** * The batch *)

Lemma enhanceEach_run (env : Env) (images_ idleImages : list ImageFile) :
  forall (arrivals : list (list ImageFile)) (s : State),
  enhanceEach env images_ idleImages arrivals s
  = (tt, mkState (Spec.batch_store env (calls s) images_ idleImages arrivals (images s))
                 (isProcessing s) (isZipping s)
                 (Spec.batch_calls env (calls s) images_ idleImages) (ticks s)
                 (log s ++ Spec.batch_events env (calls s) images_ idleImages arrivals)).
Proof.
  induction idleImages as [|image rest IH]; intros arrivals s.
  - destruct s. cbn. rewrite app_nil_r. reflexivity.
  - cbn [enhanceEach Spec.batch_store Spec.batch_calls Spec.batch_events].
    unfold bind.
    destruct (Spec.lookup images_ (id image)) as [found|] eqn:Hl.
    + rewrite (enhanceSingleImage_run env images_ (id image) (hd [] arrivals) s found Hl).
      rewrite IH. cbn [images isProcessing isZipping calls ticks log].
      rewrite <- app_assoc. reflexivity.
    + rewrite (enhanceSingleImage_missing env images_ (id image) (hd [] arrivals) s Hl).
      apply IH.
Qed.

(** [enhanceAllImages], as a function of the state it starts in. *)
Lemma enhanceAllImages_run (env : Env) (images_ : list ImageFile)
    (arrivals : list (list ImageFile)) (s : State) :
  let idleImages := filter isIdle images_ in
  enhanceAllImages env images_ arrivals s
  = (tt, mkState (Spec.batch_store env (calls s) images_ idleImages arrivals (images s))
                 false (isZipping s)
                 (Spec.batch_calls env (calls s) images_ idleImages) (ticks s)
                 (log s ++ EvIsProcessing true ::
                    Spec.batch_events env (calls s) images_ idleImages arrivals ++
                    [EvIsProcessing false])).
Proof.
  intros idleImages. unfold enhanceAllImages, bind at 1, setIsProcessing at 1.
  fold idleImages. unfold bind. rewrite enhanceEach_run.
  unfold setIsProcessing. cbn [images isProcessing isZipping calls ticks log].
  rewrite <- !app_assoc. reflexivity.
Qed.

Lemma lookup_in (images_ : list ImageFile) (image : ImageFile) :
  In image images_ ->
  exists found : ImageFile,
    Spec.lookup images_ (id image) = Some found /\ id found = id image.
Proof.
  unfold Spec.lookup. induction images_ as [|r images_ IH]; intros Hin.
  - destruct Hin.
  - cbn [find]. destruct (String.eqb (id r) (id image)) eqn:E.
    + exists r. split; [reflexivity|]. apply String.eqb_eq. assumption.
    + destruct Hin as [Heq|Hin].
      * subst r. rewrite String.eqb_refl in E. discriminate.
      * apply IH. assumption.
Qed.

Lemma idle_known (images_ : list ImageFile) :
  Spec.known images_ (filter isIdle images_).
Proof.
  apply Forall_forall. intros r Hr. apply filter_In in Hr. tauto.
Qed.

Section Batch.

Variable env : Env.
Variable images_ : list ImageFile.






(** With a credential each record costs one remote call, and without
    one none is made. *)
Lemma batch_network_calls (idleImages : list ImageFile) :
  Spec.known images_ idleImages ->
  forall (n : nat) (arrivals : list (list ImageFile)),
    List.length (Spec.network_calls
                   (Spec.batch_events env n images_ idleImages arrivals))
    = if Spec.configured env then List.length idleImages else 0.
Proof.
  induction 1 as [|image rest Hin _ IH]; intros n arrivals.
  - destruct (Spec.configured env); reflexivity.
  - cbn [Spec.batch_events].
    destruct (lookup_in images_ image Hin) as (found & Hl & _). rewrite Hl.
    rewrite network_calls_app, length_app, network_calls_single_events, IH.
    destruct (Spec.configured env); reflexivity.
Qed.

(** The trace of the loop accounts for its store. *)
Lemma replay_batch_events (idleImages : list ImageFile) :
  forall (n : nat) (arrivals : list (list ImageFile)) (store : list ImageFile),
    Spec.replay (Spec.batch_events env n images_ idleImages arrivals) store
    = Spec.batch_store env n images_ idleImages arrivals store.
Proof.
  induction idleImages as [|image rest IH]; intros n arrivals store; [reflexivity|].
  cbn [Spec.batch_events Spec.batch_store].
  destruct (Spec.lookup images_ (id image)); [|apply IH].
  rewrite replay_app, replay_single_events. apply IH.
Qed.

End Batch.

(* ================================================================== *)
(** * What an enhancement leaves alone *)

Section Frame.

Variable env : Env.


(** A record of another id is where it was, as it was. *)
Lemma single_store_other n id_ image arriving (store : list ImageFile)
    (k : nat) (r : ImageFile) :
  nth_error store k = Some r -> id r <> id_ ->
  nth_error (Spec.single_store env n id_ image arriving store) k = Some r.
Proof.
  intros Hk Hne. unfold Spec.single_store.
  apply patch_where_other; [|assumption].
  rewrite nth_error_app1.
  - apply patch_where_other; assumption.
  - rewrite patch_where_length. apply nth_error_Some. congruence.
Qed.

(** A record of the id has been set to Enhancing and then patched with
    the verdict. *)
Lemma single_store_same n id_ image arriving (store : list ImageFile)
    (k : nat) (r : ImageFile) :
  nth_error store k = Some r -> id r = id_ ->
  nth_error (Spec.single_store env n id_ image arriving store) k
  = Some (apply_patch (Spec.verdict env n image) (with_status ENHANCING r)).
Proof.
  intros Hk He. unfold Spec.single_store.
  apply patch_where_same; [|assumption].
  rewrite nth_error_app1.
  - apply (patch_where_same id_ ToEnhancing store k r Hk He).
  - rewrite patch_where_length. apply nth_error_Some. congruence.
Qed.


Variable images_ : list ImageFile.

Lemma batch_store_other (idleImages : list ImageFile) :
  forall (n : nat) (arrivals : list (list ImageFile)) (store : list ImageFile)
         (k : nat) (r : ImageFile),
    nth_error store k = Some r ->
    ~ In (id r) (map id idleImages) ->
    nth_error (Spec.batch_store env n images_ idleImages arrivals store) k = Some r.
Proof.
  induction idleImages as [|image rest IH]; intros n arrivals store k r Hk Hnot;
    [assumption|].
  cbn [Spec.batch_store]. cbn [map] in Hnot.
  assert (Hne : id r <> id image) by (intros E; apply Hnot; left; congruence).
  assert (Hrest : ~ In (id r) (map id rest)) by (intros E; apply Hnot; right; exact E).
  destruct (Spec.lookup images_ (id image)); apply IH; try assumption.
  apply single_store_other; assumption.
Qed.



(** A record that bears the id of a record of the loop is, at the end,
    where it was, the same image in a terminal state. *)
Lemma batch_store_terminal (idleImages : list ImageFile) :
  Spec.known images_ idleImages ->
  forall (n : nat) (arrivals : list (list ImageFile)) (store : list ImageFile)
         (k : nat) (r : ImageFile),
    nth_error store k = Some r ->
    In (id r) (map id idleImages) ->
    exists r' : ImageFile,
      nth_error (Spec.batch_store env n images_ idleImages arrivals store) k = Some r'
      /\ id r' = id r /\ file r' = file r /\ originalSrc r' = originalSrc r
      /\ (status r' = SUCCESS \/ status r' = ERROR).
Proof.
  induction 1 as [|image rest Hknown _ IH]; intros n arrivals store k r Hk Hin.
  - destruct Hin.
  - cbn [Spec.batch_store].
    destruct (lookup_in images_ image Hknown) as (found & Hl & _). rewrite Hl.
    set (p := Spec.verdict env n found).
    set (store1 := Spec.single_store env n (id image) found (hd [] arrivals) store).
    assert (H1 : exists r1, nth_error store1 k = Some r1
                 /\ id r1 = id r /\ file r1 = file r
                 /\ originalSrc r1 = originalSrc r
                 /\ (id r = id image -> status r1 = SUCCESS \/ status r1 = ERROR)).
    { destruct (string_dec (id r) (id image)) as [He|Hne].
      - exists (apply_patch p (with_status ENHANCING r)).
        split; [apply single_store_same; assumption|].
        pose proof (verdict_terminal env n found) as Ht. fold p in Ht.
        unfold Spec.terminal in Ht.
        destruct p; simpl in *; auto.
      - exists r. split; [apply single_store_other; assumption|].
        repeat split; try reflexivity. intros E. contradiction. }
    destruct H1 as (r1 & Hk1 & Hid1 & Hf1 & Ho1 & Ht1).
    destruct (in_dec string_dec (id r) (map id rest)) as [Hrest|Hrest].
    + destruct (IH (Spec.calls_after env n) (tl arrivals) store1 k r1 Hk1)
        as (r' & Hk' & Hid' & Hf' & Ho' & Ht').
      { rewrite Hid1. assumption. }
      exists r'. repeat split; try congruence; try assumption.
    + exists r1. split; [|repeat split; try assumption].
      * apply batch_store_other; [assumption|]. rewrite Hid1. assumption.
      * apply Ht1. cbn [map] in Hin. destruct Hin as [E|E]; [congruence|contradiction].
Qed.

End Frame.




(* ================================================================== *)
(** * The archive *)

Lemma zipEach_run (env : Env) (successfulImages : list ImageFile) :
  forall (zip : list (string * string)) (s : State),
  zipEach env successfulImages zip s
  = (Spec.zip_entries env successfulImages zip,
     mkState (images s) (isProcessing s) (isZipping s) (calls s) (ticks s)
             (log s ++ Spec.fetch_events env successfulImages)).
Proof.
  induction successfulImages as [|image rest IH]; intros zip s.
  - destruct s. cbn. rewrite app_nil_r. reflexivity.
  - cbn [zipEach Spec.zip_entries Spec.fetch_events].
    destruct (enhancedSrc image) as [src|]; cbn [Js.truthy_opt]; [|apply IH].
    destruct (Js.truthy src); [|apply IH].
    unfold bind, emit.
    destruct (fetch env src) as [blob|e].
    + rewrite IH. cbn [images isProcessing isZipping calls ticks log].
      rewrite <- app_assoc. reflexivity.
    + reflexivity.
Qed.

(** What the [try] block of [handleDownloadAll] comes to. *)
Lemma handleDownloadAll_try_fst (env : Env) (successfulImages : list ImageFile)
    (s : State) :
  fst (handleDownloadAll_try env successfulImages s)
  = match Spec.zip_entries env successfulImages [] with
    | Rejected e => Rejected e
    | Resolved zip =>
        match generateAsync env zip with
        | Rejected e => Rejected e
        | Resolved _ => Resolved tt
        end
    end.
Proof.
  unfold handleDownloadAll_try, bind at 1. rewrite zipEach_run.
  destruct (Spec.zip_entries env successfulImages []) as [zip|e]; [|reflexivity].
  unfold bind, emit. cbn [fst snd].
  destruct (generateAsync env zip); reflexivity.
Qed.

(** [handleDownloadAll], as a function of the state it starts in. *)
Lemma handleDownloadAll_run (env : Env) (images_ : list ImageFile) (s : State) :
  let successfulImages := filter isSuccessful images_ in
  handleDownloadAll env images_ s
  = match successfulImages with
    | [] => (tt, s)
    | _ :: _ =>
        (tt, mkState (images s) (isProcessing s) false (calls s) (ticks s)
                     (log s ++ EvIsZipping true ::
                        Spec.fetch_events env successfulImages ++
                        Spec.packaging_events env successfulImages ++
                        [EvIsZipping false]))
    end.
Proof.
  intros successfulImages. unfold handleDownloadAll. fold successfulImages.
  destruct successfulImages as [|image rest] eqn:E; [reflexivity|].
  cbn [List.length Nat.eqb]. rewrite <- E. clear E.
  unfold bind at 1, setIsZipping at 1.
  unfold bind at 1, handleDownloadAll_try, bind at 1.
  rewrite zipEach_run. unfold Spec.packaging_events.
  cbn [images isProcessing isZipping calls ticks log].
  destruct (Spec.zip_entries env successfulImages []) as [zip|e].
  - unfold bind, emit, setIsZipping.
    state_simpl.
    destruct (generateAsync env zip) as [content_|e];
      unfold ret, emit, setIsZipping;
      state_simpl;
      repeat (rewrite <- app_assoc; cbn [app]); reflexivity.
  - unfold ret, bind, emit, setIsZipping.
    state_simpl.
    repeat (rewrite <- app_assoc; cbn [app]). reflexivity.
Qed.

Lemma downloads_app (a b : list Event) :
  Spec.downloads (a ++ b) = Spec.downloads a ++ Spec.downloads b.
Proof. apply flat_map_app. Qed.

Lemma packagings_app (a b : list Event) :
  Spec.packagings (a ++ b) = Spec.packagings a ++ Spec.packagings b.
Proof. apply flat_map_app. Qed.

Lemma zipping_writes_app (a b : list Event) :
  Spec.zipping_writes (a ++ b) = Spec.zipping_writes a ++ Spec.zipping_writes b.
Proof. apply flat_map_app. Qed.

(** The fetches are fetches and nothing else. *)
Lemma fetch_events_only (env : Env) (successfulImages : list ImageFile) :
  Spec.downloads (Spec.fetch_events env successfulImages) = []
  /\ Spec.packagings (Spec.fetch_events env successfulImages) = []
  /\ Spec.zipping_writes (Spec.fetch_events env successfulImages) = [].
Proof.
  induction successfulImages as [|image rest IH]; [repeat split|].
  cbn [Spec.fetch_events].
  destruct (enhancedSrc image) as [src|]; cbn [Js.truthy_opt]; [|exact IH].
  destruct (Js.truthy src); [|exact IH].
  destruct (fetch env src); [|repeat split].
  exact IH.
Qed.

(** A fetch that fails makes the loop fail. *)
Lemma zip_entries_rejected (env : Env) (successfulImages : list ImageFile) :
  forall (zip : list (string * string)) (image : ImageFile) (src : string) (e : Thrown),
    In image successfulImages ->
    enhancedSrc image = Some src -> Js.truthy src = true ->
    fetch env src = Rejected e ->
    exists e' : Thrown, Spec.zip_entries env successfulImages zip = Rejected e'.
Proof.
  induction successfulImages as [|a rest IH]; intros zip image src e Hin Hsrc Ht Hf.
  - destruct Hin.
  - cbn [Spec.zip_entries]. destruct Hin as [->|Hin].
    + rewrite Hsrc. cbn [Js.truthy_opt]. rewrite Ht, Hf. eexists. reflexivity.
    + destruct (enhancedSrc a) as [srca|]; cbn [Js.truthy_opt];
        [|apply (IH zip image src e); assumption].
      destruct (Js.truthy srca); [|apply (IH zip image src e); assumption].
      destruct (fetch env srca) as [blob|ea]; [|eexists; reflexivity].
      apply (IH _ image src e); assumption.
Qed.

(** C7.  When the fetch of the enhanced bytes of some record fails, or
    the packaging fails, the archive build is abandoned: no archive blob
    is produced and nothing is downloaded, the failure is logged, and the
    zipping flag is set back to false; on every path of a build, the
    success path included, the flag is written true and then false. *)
Theorem C7_archive_failure (env : Env) (s : State) :
  let successfulImages := filter isSuccessful (images s) in
  let s' := exec (clickDownloadAll env) s in
  ((exists (image : ImageFile) (src : string) (e : Thrown),
       In image successfulImages
       /\ enhancedSrc image = Some src
       /\ fetch env src = Rejected e)
   \/ (successfulImages <> []
       /\ exists (zip : list (string * string)) (e : Thrown),
            fst (zipEach env successfulImages [] s) = Resolved zip
            /\ generateAsync env zip = Rejected e) ->
   exists evs : list Event,
     log s' = log s ++ EvIsZipping true :: evs ++
                [EvConsoleError "Failed to create zip file"; EvIsZipping false]
     /\ Spec.downloads evs = []
     /\ (forall s0 : State,
            exists e : Thrown,
              fst (handleDownloadAll_try env successfulImages s0) = Rejected e)
     /\ (forall zip : list (string * string),
            In zip (Spec.packagings evs) ->
            exists e : Thrown, generateAsync env zip = Rejected e)
     /\ Spec.zipping_writes evs = []
     /\ isZipping s' = false
     /\ images s' = images s)
  /\ (successfulImages <> [] ->
      exists evs : list Event,
        log s' = log s ++ evs
        /\ Spec.zipping_writes evs = [true; false]
        /\ isZipping s' = false).
Proof.
  intros successfulImages s'.
  pose proof (handleDownloadAll_run env (images s) s) as Hrun.
  cbv zeta in Hrun. fold successfulImages in Hrun.
  destruct (fetch_events_only env successfulImages) as (Hfd & Hfp & Hfz).
  split.
  - intros Hfail.
    assert (Hne : successfulImages <> []).
    { destruct Hfail as [(image & _ & _ & Hin & _)|[Hne _]]; [|exact Hne].
      intros E. rewrite E in Hin. destruct Hin. }
    assert (Hshape :
      (exists e, Spec.zip_entries env successfulImages [] = Rejected e)
      \/ (exists zip e, Spec.zip_entries env successfulImages [] = Resolved zip
                        /\ generateAsync env zip = Rejected e)).
    { destruct Hfail as [(image & src & e & Hin & Hsrc & Hf)|[_ H]];
        [left|right; rewrite zipEach_run in H; exact H].
      assert (Hs : isSuccessful image = true).
      { apply filter_In in Hin. tauto. }
      unfold isSuccessful in Hs. rewrite Hsrc in Hs. cbn [Js.truthy_opt] in Hs.
      apply andb_true_iff in Hs as [_ Ht].
      apply (zip_entries_rejected env successfulImages [] image src e); assumption. }
    unfold s', exec, clickDownloadAll. rewrite Hrun.
    destruct successfulImages as [|a rest] eqn:E; [contradiction|]. rewrite <- E in *.
    cbn [snd log isZipping images].
    unfold Spec.packaging_events.
    destruct Hshape as [(e & Hz)|(zip & e & Hz & Hg)].
    + rewrite Hz. exists (Spec.fetch_events env successfulImages).
      rewrite Hfd, Hfp, Hfz.
      split; [reflexivity|]. split; [reflexivity|]. split; [|repeat split].
      * intros s0. exists e. rewrite handleDownloadAll_try_fst, Hz. reflexivity.
      * intros zip [].
    + rewrite Hz, Hg.
      exists (Spec.fetch_events env successfulImages ++ [EvGenerateAsync zip]).
      rewrite downloads_app, packagings_app, zipping_writes_app, Hfd, Hfp, Hfz.
      split; [rewrite <- app_assoc; reflexivity|].
      split; [reflexivity|]. split; [|repeat split].
      * intros s0. exists e. rewrite handleDownloadAll_try_fst, Hz, Hg. reflexivity.
      * intros zip' [<-|[]]. exists e. exact Hg.
  - intros Hne. unfold s', exec, clickDownloadAll. rewrite Hrun.
    destruct successfulImages as [|a rest] eqn:E; [contradiction|]. rewrite <- E in *.
    cbn [snd log isZipping].
    eexists. split; [reflexivity|]. split; [|reflexivity].
    change (Spec.zipping_writes (EvIsZipping true :: ?l))
      with (true :: Spec.zipping_writes l).
    rewrite !zipping_writes_app, Hfz.
    unfold Spec.packaging_events.
    destruct (Spec.zip_entries env successfulImages []) as [zip|e]; [|reflexivity].
    destruct (generateAsync env zip); reflexivity.
Qed.

Lemma C7_archive_failure_witness :
  let a := Sample.success_of Sample.a_png "1000" "RU5I" in
  let b := Sample.success_of Sample.b_jpg "1001" "RU5I" in
  (exists evs : list Event,
      log (exec (clickDownloadAll Sample.env_nofetch) (mounted [a; b]))
      = EvIsZipping true :: evs ++
          [EvConsoleError "Failed to create zip file"; EvIsZipping false]
      /\ Spec.downloads evs = [])
  /\ isZipping (exec (clickDownloadAll Sample.env_nozip) (mounted [a; b])) = false.
Proof.
  intros a b. split.
  - destruct (proj1 (C7_archive_failure Sample.env_nofetch (mounted [a; b])))
      as (evs & Hlog & Hd & _).
    + left. exists a, "data:image/png;base64,RU5I", (JsError "Failed to fetch").
      split; [left; reflexivity|]. split; reflexivity.
    + exists evs. split; [exact Hlog|exact Hd].
  - destruct (proj1 (C7_archive_failure Sample.env_nozip (mounted [a; b])))
      as (evs & _ & _ & _ & _ & _ & Hz & _).
    + right. split; [discriminate|].
      eexists. exists (JsError "out of memory"). split; reflexivity.
    + exact Hz.
Defined.

(** C8.  When no record has status Success, the archive build does
    nothing at all: the state is left as it is, no event happens (no
    fetch, no packaging, no download, no write to the zipping flag), and
    the zipping flag, false before the call, is false after it. *)
Theorem C8_archive_noop (env : Env) (s : State) :
  (forall r : ImageFile, In r (images s) -> status r <> SUCCESS) ->
  let s' := exec (clickDownloadAll env) s in
  s' = s
  /\ log s' = log s
  /\ (isZipping s = false -> isZipping s' = false).
Proof.
  intros Hnone s'.
  assert (Hempty : filter isSuccessful (images s) = []).
  { destruct (filter isSuccessful (images s)) as [|r rest] eqn:E; [reflexivity|].
    assert (Hin : In r (filter isSuccessful (images s))) by (rewrite E; left; reflexivity).
    apply filter_In in Hin as [Hin Hs].
    unfold isSuccessful in Hs. apply andb_true_iff in Hs as [Hs _].
    exfalso. apply (Hnone r Hin). destruct (status r); try discriminate. reflexivity. }
  assert (Hs : s' = s).
  { unfold s', exec, clickDownloadAll.
    pose proof (handleDownloadAll_run env (images s) s) as Hrun. cbv zeta in Hrun.
    rewrite Hempty in Hrun. rewrite Hrun. reflexivity. }
  rewrite Hs. repeat split. intros H. exact H.
Qed.

Lemma C8_archive_noop_witness :
  let a := Sample.idle_of Sample.a_png "1000" in
  exec (clickDownloadAll Sample.env_ok) (mounted [a]) = mounted [a].
Proof.
  intros a.
  apply (proj1 (C8_archive_noop Sample.env_ok (mounted [a])
                  ltac:(intros r [<-|[]]; discriminate))).
Defined.

(* ================================================================== *)
(** * The invariant of the records *)

Lemma fresh_ok (r : ImageFile) : Spec.fresh r -> Spec.record_ok r.
Proof.
  intros (Hs & He & Hr). unfold Spec.record_ok, Spec.present.
  rewrite Hs, He, Hr. split; split; intros H; try discriminate; contradiction.
Qed.

Lemma idle_ok_blank (r : ImageFile) :
  Spec.record_ok r -> status r = IDLE -> Spec.blank r.
Proof.
  unfold Spec.record_ok, Spec.present, Spec.blank.
  intros ((He & _) & (Hr & _)) Hs. rewrite Hs in He, Hr. split.
  - destruct (enhancedSrc r); [|reflexivity].
    assert (H : IDLE = SUCCESS) by (apply He; discriminate). discriminate.
  - destruct (error r); [|reflexivity].
    assert (H : IDLE = ERROR) by (apply Hr; discriminate). discriminate.
Qed.

Lemma enhancing_ok (r : ImageFile) :
  Spec.blank r -> Spec.record_ok (with_status ENHANCING r).
Proof.
  intros (He & Hr). unfold Spec.record_ok, Spec.present. cbn.
  rewrite He, Hr. split; split; intros H; try discriminate; contradiction.
Qed.

Lemma verdict_ok (p : Patch) (r : ImageFile) :
  Spec.terminal p -> Spec.blank r -> Spec.record_ok (apply_patch p r).
Proof.
  intros Ht (He & Hr). unfold Spec.record_ok, Spec.present.
  destruct p as [|src|msg]; cbn.
  - destruct Ht as [Ht|Ht]; discriminate.
  - rewrite Hr. split; split; intros H; try discriminate; try reflexivity; contradiction.
  - rewrite He. split; split; intros H; try discriminate; try reflexivity; contradiction.
Qed.

Section Invariant.

Variable env : Env.

(** One enhancement of an id whose records are all Idle keeps the
    invariant, at each of its steps. *)
Lemma single_ok (n : nat) (id_ : string) (image : ImageFile)
    (arriving store : list ImageFile) :
  Spec.store_ok store -> Spec.idle_at id_ store -> Forall Spec.fresh arriving ->
  Spec.store_ok (patch_where id_ ToEnhancing store)
  /\ Spec.store_ok (patch_where id_ ToEnhancing store ++ Spec.in_flight env arriving)
  /\ Spec.store_ok (Spec.single_store env n id_ image arriving store).
Proof.
  intros Hok Hidle Hfresh.
  assert (Hin_flight : Forall Spec.fresh (Spec.in_flight env arriving)).
  { unfold Spec.in_flight. destruct (Spec.configured env); [assumption|constructor]. }
  assert (H1 : Forall (fun r => Spec.record_ok r
                                /\ (id r = id_ -> Spec.blank r))
                      (patch_where id_ ToEnhancing store)).
  { apply Forall_forall. intros r Hr.
    apply In_patch_where in Hr as (r0 & Hin & [(He & ->)|(Hne & ->)]).
    - assert (Hb : Spec.blank r0).
      { apply idle_ok_blank; [|apply Hidle; assumption].
        unfold Spec.store_ok in Hok. rewrite Forall_forall in Hok. auto. }
      split; [apply enhancing_ok; assumption|]. intros _. exact Hb.
    - split; [|contradiction].
      unfold Spec.store_ok in Hok. rewrite Forall_forall in Hok. auto. }
  assert (H2 : Forall (fun r => Spec.record_ok r
                                /\ (id r = id_ -> Spec.blank r))
                      (patch_where id_ ToEnhancing store
                         ++ Spec.in_flight env arriving)).
  { apply Forall_app. split; [assumption|].
    eapply Forall_impl; [|exact Hin_flight].
    intros r Hf. split; [apply fresh_ok; assumption|].
    intros _. destruct Hf as (_ & He & Hr). split; assumption. }
  split; [|split].
  - eapply Forall_impl; [|exact H1]. intros r [H _]. exact H.
  - eapply Forall_impl; [|exact H2]. intros r [H _]. exact H.
  - unfold Spec.single_store. apply Forall_forall. intros r Hr.
    rewrite Forall_forall in H2.
    apply In_patch_where in Hr as (r0 & Hin & [(He & ->)|(Hne & ->)]).
    + apply verdict_ok; [apply verdict_terminal|]. apply (H2 r0 Hin). assumption.
    + apply (H2 r0 Hin).
Qed.

Variable images_ : list ImageFile.

(** The loop keeps the invariant at each of its steps, provided the
    ids of its records are distinct and borne by Idle records only. *)
Lemma batch_ok (idleImages : list ImageFile) :
  NoDup (map id idleImages) ->
  forall (n : nat) (arrivals : list (list ImageFile)) (store : list ImageFile),
    Spec.store_ok store ->
    (forall i : string, In i (map id idleImages) -> Spec.idle_at i store) ->
    Forall (Forall Spec.fresh) arrivals ->
    Forall Spec.store_ok
           (Spec.stores store (Spec.batch_events env n images_ idleImages arrivals))
    /\ Spec.store_ok (Spec.batch_store env n images_ idleImages arrivals store).
Proof.
  induction idleImages as [|image rest IH];
    intros Hnodup n arrivals store Hok Hidle Hfresh.
  - split; [constructor|assumption].
  - cbn [map] in Hnodup. inversion Hnodup as [|? ? Hnotin Hnodup']; subst.
    assert (Htl : Forall (Forall Spec.fresh) (tl arrivals)).
    { destruct arrivals; [constructor|]. inversion Hfresh; assumption. }
    assert (Hhd : Forall Spec.fresh (hd [] arrivals)).
    { destruct arrivals; [constructor|]. inversion Hfresh; assumption. }
    cbn [Spec.batch_events Spec.batch_store].
    destruct (Spec.lookup images_ (id image)) as [found|].
    + destruct (single_ok n (id image) found (hd [] arrivals) store Hok
                  (Hidle (id image) (or_introl eq_refl)) Hhd)
        as (H1 & H2 & H3).
      assert (Hidle' : forall i, In i (map id rest) ->
                Spec.idle_at i (Spec.single_store env n (id image) found
                                  (hd [] arrivals) store)).
      { intros i Hi r Hr Hid. unfold Spec.single_store in Hr.
        assert (Hne : i <> id image) by (intros E; rewrite E in Hi; contradiction).
        apply In_patch_where in Hr as (r0 & Hin0 & [(He & ->)|(_ & ->)]);
          [rewrite apply_patch_id in Hid; congruence|].
        apply in_app_or in Hin0 as [Hin0|Hin0].
        - apply In_patch_where in Hin0 as (r1 & Hin1 & [(He & ->)|(_ & ->)]);
            [rewrite apply_patch_id in Hid; congruence|].
          apply (Hidle i (or_intror Hi) r1 Hin1 Hid).
        - assert (Hf : Forall Spec.fresh (Spec.in_flight env (hd [] arrivals))).
          { unfold Spec.in_flight. destruct (Spec.configured env);
              [assumption|constructor]. }
          rewrite Forall_forall in Hf. apply (Hf r0 Hin0). }
      destruct (IH Hnodup' (Spec.calls_after env n) (tl arrivals) _ H3 Hidle' Htl)
        as (Hs & Hf).
      split; [|exact Hf].
      rewrite stores_app, replay_single_events.
      apply Forall_app. split; [|exact Hs].
      apply stores_single_events; assumption.
    + apply IH; try assumption.
      intros i Hi. apply Hidle. right. assumption.
Qed.

End Invariant.

Lemma readFiles_fresh (env : Env) (files : list File) :
  forall (acc : list ImageFile) (s : State),
    Forall Spec.fresh acc ->
    images (snd (readFiles env files acc s)) = images s
    /\ log (snd (readFiles env files acc s)) = log s
    /\ match fst (readFiles env files acc s) with
       | Resolved newImageFiles => Forall Spec.fresh newImageFiles
       | Rejected _ => True
       end.
Proof.
  induction files as [|f files IH]; intros acc s Hacc.
  - cbn. auto.
  - cbn [readFiles]. destruct (Js.startsWith "image/" (type f)); [|apply IH; assumption].
    destruct (readAsDataURL env f) as [dataUrl|e]; [|cbn; auto].
    unfold bind, next_tick.
    match goal with
    | |- context [readFiles env files ?acc' ?s'] =>
        destruct (IH acc' s') as (Hi & Hl & Hf)
    end.
    + apply Forall_app. split; [assumption|].
      constructor; [repeat split|constructor].
    + rewrite Hi, Hl. auto.
Qed.

Lemma handleFileChange_ok (env : Env) (files : option (list File)) (s : State) :
  Spec.store_ok (images s) ->
  Spec.store_ok (images (exec (handleFileChange env files) s)).
Proof.
  intros Hok. unfold exec, handleFileChange.
  destruct files as [files|]; [|exact Hok].
  unfold bind.
  destruct (readFiles_fresh env files [] s (Forall_nil _)) as (Hi & _ & Hf).
  destruct (readFiles env files [] s) as [[new|e] s1]; cbn [fst snd] in *.
  - unfold commitImages, bind, emit, setImages, ret. cbn [fst snd images].
    rewrite Hi. apply Forall_app. split; [exact Hok|].
    eapply Forall_impl; [|exact Hf]. apply fresh_ok.
  - unfold ret. cbn [snd]. rewrite Hi. exact Hok.
Qed.

Lemma isIdle_status (r : ImageFile) : isIdle r = true -> status r = IDLE.
Proof. unfold isIdle. destruct (status r); intros H; try discriminate; reflexivity. Qed.

(** C1 (amended).  In a Store every record of which has its enhanced
    bytes present if and only if its status is Success, and its error
    detail present if and only if its status is Error, this is still so
    after an add, after the enhancement of a record that is Idle when the
    enhancement is invoked (at each step of it), after a batch
    enhancement over a Store whose ids are distinct (at each step of it),
    and after an archive build, which leaves the records as they are. *)
Theorem C1_presence_invariant (env : Env) (s : State) :
  Spec.store_ok (images s) ->
  (forall files : option (list File),
      Spec.store_ok (images (exec (handleFileChange env files) s)))
  /\ (forall (images_ : list ImageFile) (id_ : string) (arriving : list ImageFile),
         Spec.idle_at id_ (images s) ->
         Forall Spec.fresh arriving ->
         let s' := exec (enhanceSingleImage env images_ id_ arriving) s in
         exists evs : list Event,
           log s' = log s ++ evs
           /\ images s' = Spec.replay evs (images s)
           /\ Forall Spec.store_ok (Spec.stores (images s) evs)
           /\ Spec.store_ok (images s'))
  /\ (forall arrivals : list (list ImageFile),
         NoDup (map id (images s)) ->
         Forall (Forall Spec.fresh) arrivals ->
         let s' := exec (clickEnhanceAll env arrivals) s in
         exists evs : list Event,
           log s' = log s ++ evs
           /\ images s' = Spec.replay evs (images s)
           /\ Forall Spec.store_ok (Spec.stores (images s) evs)
           /\ Spec.store_ok (images s'))
  /\ images (exec (clickDownloadAll env) s) = images s.
Proof.
  intros Hok. split; [|split; [|split]].
  - intros files. apply handleFileChange_ok. assumption.
  - intros images_ id_ arriving Hidle Hfresh s'. unfold s', exec.
    destruct (Spec.lookup images_ id_) as [image|] eqn:Hl.
    + rewrite (enhanceSingleImage_run env images_ id_ arriving s image Hl).
      cbn [snd log images].
      destruct (single_ok env (calls s) id_ image arriving (images s) Hok Hidle Hfresh)
        as (H1 & H2 & H3).
      exists (Spec.single_events env (calls s) id_ image arriving).
      split; [reflexivity|]. split; [symmetry; apply replay_single_events|].
      split; [apply stores_single_events; assumption|assumption].
    + rewrite (enhanceSingleImage_missing env images_ id_ arriving s Hl).
      exists []. cbn [snd]. rewrite app_nil_r.
      split; [reflexivity|]. split; [reflexivity|]. split; [constructor|assumption].
  - intros arrivals Hnodup Hfresh s'. unfold s', exec, clickEnhanceAll.
    rewrite enhanceAllImages_run. cbn [snd log images].
    set (idleImages := filter isIdle (images s)).
    destruct (batch_ok env (images s) idleImages
                (NoDup_map_filter _ _ id isIdle (images s) Hnodup)
                (calls s) arrivals (images s) Hok) as (Hs & Hf).
    { intros i Hi r Hr Hid.
      apply in_map_iff in Hi as (x & Hx & Hin).
      apply filter_In in Hin as [Hin Hidle].
      assert (E : r = x).
      { apply (NoDup_map_inj _ _ id (images s)); try assumption. congruence. }
      subst r. apply isIdle_status. assumption. }
    { assumption. }
    exists (EvIsProcessing true ::
              Spec.batch_events env (calls s) (images s) idleImages arrivals
              ++ [EvIsProcessing false]).
    split; [reflexivity|]. split; [|split].
    + unfold Spec.replay. cbn [fold_left Spec.step]. rewrite fold_left_app.
      cbn [fold_left Spec.step]. symmetry. apply replay_batch_events.
    + cbn [Spec.stores Spec.step]. constructor; [assumption|].
      rewrite stores_app. apply Forall_app. split; [assumption|].
      cbn [Spec.stores Spec.step]. constructor; [|constructor].
      rewrite replay_batch_events. assumption.
    + assumption.
  - unfold exec, clickDownloadAll.
    pose proof (handleDownloadAll_run env (images s) s) as Hrun. cbv zeta in Hrun.
    rewrite Hrun. destruct (filter isSuccessful (images s)); reflexivity.
Qed.

Lemma sample_idle_fresh (f : File) (stamp : string) :
  Spec.fresh (Sample.idle_of f stamp).
Proof. repeat split. Qed.

Lemma C1_presence_invariant_witness :
  let a := Sample.idle_of Sample.a_png "1000" in
  let b := Sample.idle_of Sample.b_jpg "1001" in
  let late := Sample.idle_of Sample.readme "1002" in
  Spec.store_ok
    (images (exec (clickEnhanceAll Sample.env_flaky [[late]]) (mounted [a; b]))).
Proof.
  intros a b late.
  assert (Hok : Spec.store_ok (images (mounted [a; b]))).
  { repeat constructor; apply fresh_ok; apply sample_idle_fresh. }
  destruct (proj1 (proj2 (proj2
              (C1_presence_invariant Sample.env_flaky (mounted [a; b]) Hok)))
              [[late]])
    as (evs & _ & _ & _ & Hfinal).
  - repeat constructor; cbn; intuition discriminate.
  - repeat constructor.
  - exact Hfinal.
Defined.

(** C1, as claimed, fails when enhancement is invoked again on a record:
    after a Success, a second enhancement that fails leaves the record in
    Error with its enhanced bytes still present; after an Error, a second
    enhancement that succeeds leaves it in Success with its error detail
    still present; and meanwhile the record is Enhancing with the bytes,
    or the detail, of the earlier run.  A batch does invoke enhancement
    again when two records bear the same id, as two files of the same
    name read in the same millisecond do. *)
Lemma C1_counterexample :
  let r := Sample.idle_of Sample.a_png "1000" in
  let once env := exec (enhanceSingleImage env [r] (id r) []) (mounted [r]) in
  let twice env :=
    exec (enhanceSingleImage env (images (once env)) (id r) []) (once env) in
  Spec.store_ok [r]
  /\ Spec.store_ok (images (once Sample.env_flaky))
  /\ Spec.store_ok (images (once Sample.env_recovering))
  /\ (exists r2 : ImageFile,
         images (twice Sample.env_flaky) = [r2]
         /\ status r2 = ERROR
         /\ enhancedSrc r2 = Some "data:image/png;base64,RU5I"
         /\ ~ Spec.record_ok r2)
  /\ (exists r2 : ImageFile,
         images (twice Sample.env_recovering) = [r2]
         /\ status r2 = SUCCESS
         /\ error r2 = Some "Failed to enhance image: 503 Service Unavailable"
         /\ ~ Spec.record_ok r2)
  /\ ~ Forall Spec.store_ok
         (Spec.stores (images (once Sample.env_flaky))
            (skipn (List.length (log (once Sample.env_flaky)))
                   (log (twice Sample.env_flaky))))
  /\ (let uploaded :=
        exec (handleFileChange Sample.env_flaky
                (Some [Sample.a_png; Sample.a_png_again])) (mounted []) in
      map id (images uploaded) = ["a.png-1000"; "a.png-1000"]
      /\ Spec.store_ok (images uploaded)
      /\ ~ Spec.store_ok
            (images (exec (clickEnhanceAll Sample.env_flaky []) uploaded))).
Proof.
  cbv zeta.
  assert (Hr : Spec.store_ok [Sample.idle_of Sample.a_png "1000"]).
  { repeat constructor; apply fresh_ok; apply sample_idle_fresh. }
  split; [exact Hr|]. split; [|split; [|split; [|split; [|split]]]].
  - vm_compute. repeat constructor; unfold Spec.present; cbn;
      intros H; try discriminate; try (exfalso; apply H; reflexivity).
  - vm_compute. repeat constructor; unfold Spec.present; cbn;
      intros H; try discriminate; try (exfalso; apply H; reflexivity).
  - eexists. split; [vm_compute; reflexivity|].
    split; [reflexivity|]. split; [reflexivity|].
    intros ((He & _) & _). cbn in He.
    assert (H : ERROR = SUCCESS) by (apply He; discriminate). discriminate.
  - eexists. split; [vm_compute; reflexivity|].
    split; [reflexivity|]. split; [reflexivity|].
    intros (_ & (Hd & _)). cbn in Hd.
    assert (H : SUCCESS = ERROR) by (apply Hd; discriminate). discriminate.
  - vm_compute. intros H. inversion H as [|? ? Hfirst _]; subst.
    inversion Hfirst as [|? ? ((He & _) & _) _]; subst. cbn in He.
    assert (E : ENHANCING = SUCCESS) by (apply He; discriminate). discriminate.
  - split; [reflexivity|]. split.
    + apply handleFileChange_ok. constructor.
    + vm_compute. intros H. inversion H as [|? ? ((He & _) & _) _]; subst.
      cbn in He.
      assert (E : ERROR = SUCCESS) by (apply He; discriminate). discriminate.
Qed.


(* ================================================================== *)
(** * More on strings: a separator that occurs once *)

Section Separator.

Variable sep : ascii.

Lemma lacks_app (a b : string) :
  Js.lacks sep (a ++ b) = Js.lacks sep a && Js.lacks sep b.
Proof.
  induction a as [|c a IH]; simpl; [reflexivity|].
  rewrite IH, andb_assoc. reflexivity.
Qed.

Lemma after_lacks (s : string) :
  Js.lacks sep s = true -> Js.after sep s = None.
Proof.
  induction s as [|c s IH]; simpl; [reflexivity|].
  intros H. apply andb_true_iff in H as [Hc Hs].
  apply negb_true_iff in Hc. rewrite Hc. apply IH. assumption.
Qed.

Lemma after_app_lacks (a b : string) :
  Js.lacks sep a = true -> Js.after sep (a ++ String sep b) = Some b.
Proof.
  induction a as [|c a IH]; simpl.
  - intros _. rewrite Ascii.eqb_refl. reflexivity.
  - intros H. apply andb_true_iff in H as [Hc Ha].
    apply negb_true_iff in Hc. rewrite Hc. apply IH. assumption.
Qed.

Lemma upto_lacks (s : string) :
  Js.lacks sep s = true -> Js.upto sep s = s.
Proof.
  induction s as [|c s IH]; simpl; [reflexivity|].
  intros H. apply andb_true_iff in H as [Hc Hs].
  apply negb_true_iff in Hc. rewrite Hc, (IH Hs). reflexivity.
Qed.

Lemma upto_lacks_sep (s : string) : Js.lacks sep (Js.upto sep s) = true.
Proof.
  induction s as [|c s IH]; simpl; [reflexivity|].
  destruct (Ascii.eqb c sep) eqn:E; simpl; [reflexivity|].
  rewrite E, IH. reflexivity.
Qed.

(** Two strings cut at their last separator are equal piece by piece. *)
Lemma last_separator_inj (a b x y : string) :
  Js.lacks sep x = true -> Js.lacks sep y = true ->
  (a ++ String sep x)%string = (b ++ String sep y)%string ->
  a = b /\ x = y.
Proof.
  revert b. induction a as [|c a IH]; intros b Hx Hy E.
  - destruct b as [|d b]; simpl in E.
    + injection E as E. auto.
    + injection E as Ec Ex. subst x.
      rewrite lacks_app in Hx. simpl in Hx.
      rewrite Ascii.eqb_refl in Hx. simpl in Hx.
      rewrite andb_false_r in Hx. discriminate.
  - destruct b as [|d b]; simpl in E.
    + injection E as Ec Ey. subst y.
      rewrite lacks_app in Hy. simpl in Hy.
      rewrite Ascii.eqb_refl in Hy. simpl in Hy.
      rewrite andb_false_r in Hy. discriminate.
    + injection E as Ec E. subst d.
      destruct (IH b Hx Hy E) as [-> ->]. auto.
Qed.

End Separator.

Lemma append_assoc (a b c : string) :
  ((a ++ b) ++ c)%string = (a ++ b ++ c)%string.
Proof. induction a as [|d a IH]; simpl; [reflexivity|]. rewrite IH. reflexivity. Qed.

Lemma append_cancel (a x y : string) :
  (a ++ x)%string = (a ++ y)%string -> x = y.
Proof.
  induction a as [|c a IH]; simpl; intros E; [assumption|].
  injection E as E. apply IH. assumption.
Qed.

(** The decimal writing of a number holds no "-". *)
Lemma of_number_lacks_dash (n : N) : Js.lacks "-" (Js.of_number n) = true.
Proof.
  unfold Js.of_number. induction (N.to_uint n) as [|d IH|d IH|d IH|d IH|d IH
                                                   |d IH|d IH|d IH|d IH|d IH];
    simpl; try reflexivity; exact IH.
Qed.

Lemma of_number_inj (n m : N) : Js.of_number n = Js.of_number m -> n = m.
Proof.
  unfold Js.of_number. intros E.
  apply DecimalN.Unsigned.to_uint_inj.
  assert (H : Some (N.to_uint n) = Some (N.to_uint m)).
  { rewrite <- !NilEmpty.usu. rewrite E. reflexivity. }
  injection H as H. exact H.
Qed.

(* ================================================================== *)
(** * Data URLs *)

Lemma fileToBase64_payload (prefix payload : string) :
  Js.lacks "," prefix = true ->
  fileToBase64 (prefix ++ "," ++ payload) = Some (Js.upto "," payload).
Proof.
  intros H. unfold fileToBase64. rewrite split_second.
  change (prefix ++ "," ++ payload)%string with (prefix ++ String "," payload)%string.
  rewrite (after_app_lacks "," prefix payload H). reflexivity.
Qed.

Lemma data_url_payload (mediaType payload : string) :
  Js.lacks "," mediaType = true -> Js.lacks "," payload = true ->
  fileToBase64 ("data:" ++ mediaType ++ ";base64," ++ payload) = Some payload.
Proof.
  intros Ht Hp.
  change ("data:" ++ mediaType ++ ";base64," ++ payload)%string
    with ("data:" ++ (mediaType ++ ";base64" ++ "," ++ payload))%string.
  assert (E : ("data:" ++ (mediaType ++ ";base64" ++ "," ++ payload))%string
              = (("data:" ++ mediaType ++ ";base64") ++ "," ++ payload)%string).
  { simpl. rewrite append_assoc. reflexivity. }
  rewrite E, fileToBase64_payload.
  - rewrite (upto_lacks "," payload Hp). reflexivity.
  - simpl. rewrite lacks_app, Ht. reflexivity.
Qed.

(** X1.  [fileToBase64] takes the payload out of a data URL: from
    ["data:" ++ mediaType ++ ";base64," ++ payload], with no comma in the
    media type nor in the payload, it gives back the payload; from a
    string without a comma it gives [undefined]; and a payload that holds
    a comma is cut there. *)
Theorem fileToBase64_round_trip :
  (forall mediaType payload : string,
      Js.lacks "," mediaType = true -> Js.lacks "," payload = true ->
      fileToBase64 ("data:" ++ mediaType ++ ";base64," ++ payload) = Some payload)
  /\ (forall dataUrl : string,
         Js.lacks "," dataUrl = true -> fileToBase64 dataUrl = None)
  /\ (forall mediaType payload rest : string,
         Js.lacks "," mediaType = true -> Js.lacks "," payload = true ->
         fileToBase64 ("data:" ++ mediaType ++ ";base64," ++ payload ++ "," ++ rest)
         = Some payload).
Proof.
  split; [|split].
  - exact data_url_payload.
  - intros dataUrl H. unfold fileToBase64.
    rewrite split_second, (after_lacks "," dataUrl H). reflexivity.
  - intros mediaType payload rest Ht Hp.
    assert (E : ("data:" ++ mediaType ++ ";base64," ++ payload ++ "," ++ rest)%string
                = (("data:" ++ mediaType ++ ";base64") ++ ","
                     ++ (payload ++ "," ++ rest))%string).
    { simpl. rewrite append_assoc. reflexivity. }
    rewrite E, fileToBase64_payload.
    + f_equal. clear E. induction payload as [|c payload IH]; simpl in *.
      * reflexivity.
      * apply andb_true_iff in Hp as [Hc Hp]. apply negb_true_iff in Hc.
        rewrite Hc, (IH Hp). reflexivity.
    + simpl. rewrite lacks_app, Ht. reflexivity.
Qed.

Lemma fileToBase64_round_trip_witness :
  fileToBase64 "data:image/png;base64,QUJD" = Some "QUJD"
  /\ fileToBase64 "no comma here" = None.
Proof.
  split.
  - apply (proj1 fileToBase64_round_trip "image/png" "QUJD"); reflexivity.
  - apply (proj1 (proj2 fileToBase64_round_trip) "no comma here"); reflexivity.
Defined.

(* ================================================================== *)
(** * More on the names of the downloads *)

Lemma spec_extension_facts (mediaType : string) :
  Js.truthy (Spec.extension mediaType) = true
  /\ Spec.extension mediaType <> "jpeg"
  /\ Js.lacks "/" (Spec.extension mediaType) = true.
Proof.
  unfold Spec.extension.
  set (sub := Js.upto "/" (Spec.subtype mediaType)).
  assert (Hsub : Js.lacks "/" sub = true) by apply upto_lacks_sep.
  destruct (Js.truthy sub) eqn:Ht; [|repeat split; discriminate].
  destruct (String.eqb sub "jpeg") eqn:Ej; [repeat split; discriminate|].
  repeat split; try assumption.
  apply String.eqb_neq. assumption.
Qed.

(** X2.  The extension of a download is never empty, never [jpeg] and
    holds no "/": whatever the media type of the file, on both download
    paths. *)
Theorem extension_well_formed (image : ImageFile) :
  Js.truthy (Card.extension image) = true
  /\ Card.extension image <> "jpeg"
  /\ Js.lacks "/" (Card.extension image) = true
  /\ Archive.extension image = Card.extension image.
Proof.
  rewrite Archive_extension_spec, Card_extension_spec.
  destruct (spec_extension_facts (type (file image))) as (H1 & H2 & H3).
  repeat split; assumption.
Qed.

Lemma enhanced_name_differs (image : ImageFile) :
  Spec.enhanced_name Spec.extension image <> name (file image).
Proof.
  unfold Spec.enhanced_name, Spec.basename.
  set (n := name (file image)). set (ext := Spec.extension (type (file image))).
  destruct (Js.lacks "." n) eqn:Hdot.
  - intros E. rewrite <- E, lacks_app in Hdot.
    simpl in Hdot. rewrite andb_false_r in Hdot. discriminate.
  - destruct (last_separator "." n Hdot) as (last & Heq & _).
    intros E. rewrite Heq in E at 2.
    apply append_cancel in E. discriminate.
Qed.

(** X3.  The name of a download is never the name of the file it comes
    from, on either download path: an enhanced image saved next to its
    original does not take its place. *)
Theorem download_name_differs (image : ImageFile) :
  Card.download image <> name (file image)
  /\ Archive.entry image <> name (file image).
Proof.
  rewrite Card_download_spec, Archive_entry_spec.
  split; apply enhanced_name_differs.
Qed.

(* ================================================================== *)
(** * More on uploads *)

Lemma readFiles_ids (env : Env) (files : list File) :
  Spec.readable env files ->
  forall (acc : list ImageFile) (s : State),
  exists newImageFiles : list ImageFile,
    fst (readFiles env files acc s) = Resolved (acc ++ newImageFiles)
    /\ map id newImageFiles
       = Store.stamps env (ticks s) (filter Spec.isImage files).
Proof.
  induction files as [|f files IH]; intros Hread acc s.
  - exists []. cbn. rewrite app_nil_r. split; reflexivity.
  - assert (Hrest : Spec.readable env files).
    { intros g Hg. apply Hread. right. assumption. }
    cbn [readFiles filter].
    change (Spec.isImage f) with (Js.startsWith "image/" (type f)).
    destruct (Js.startsWith "image/" (type f)) eqn:Himg.
    + destruct (Hread f (or_introl eq_refl) Himg) as (dataUrl & Hd).
      rewrite Hd. unfold bind, next_tick.
      set (r := mkImageFile _ f dataUrl None IDLE None).
      destruct (IH Hrest (acc ++ [r])
                  (mkState (images s) (isProcessing s) (isZipping s) (calls s)
                           (S (ticks s)) (log s)))
        as (new & Hrun & Hids).
      exists (r :: new). rewrite Hrun. split.
      * rewrite <- app_assoc. reflexivity.
      * cbn [map Store.stamps]. rewrite Hids. reflexivity.
    + apply (IH Hrest).
Qed.

Lemma In_stamps (env : Env) (files : list File) :
  forall (t : nat) (i : string),
    In i (Store.stamps env t files) ->
    exists (f : File) (k : nat),
      t <= k /\ i = (name f ++ String "-" (Js.of_number (Date_now env k)))%string.
Proof.
  induction files as [|f files IH]; intros t i Hin; [destruct Hin|].
  cbn [Store.stamps] in Hin. destruct Hin as [<-|Hin].
  - exists f, t. split; [lia|reflexivity].
  - destruct (IH (S t) i Hin) as (g & k & Hk & E).
    exists g, k. split; [lia|assumption].
Qed.

Lemma stamps_NoDup (env : Env) (files : list File) :
  (forall i j : nat, Date_now env i = Date_now env j -> i = j) ->
  forall t : nat, NoDup (Store.stamps env t files).
Proof.
  intros Hclock. induction files as [|f files IH]; intros t; [constructor|].
  cbn [Store.stamps]. constructor; [|apply IH].
  intros Hin. destruct (In_stamps env files (S t) _ Hin) as (g & k & Hk & E).
  apply (last_separator_inj "-") in E
    as [_ E]; try apply of_number_lacks_dash.
  apply of_number_inj, Hclock in E. lia.
Qed.

(** X4.  The ids of the records of one upload are the file names
    followed by "-" and the clock reading taken after each read; when no
    two readings of the clock coincide, these ids are pairwise distinct,
    whatever the file names. *)
Theorem add_ids_distinct (env : Env) (files : list File) (s : State) :
  Spec.readable env files ->
  (forall i j : nat, Date_now env i = Date_now env j -> i = j) ->
  exists newImageFiles : list ImageFile,
    images (exec (handleFileChange env (Some files)) s)
      = images s ++ newImageFiles
    /\ map id newImageFiles
       = Store.stamps env (ticks s) (filter Spec.isImage files)
    /\ NoDup (map id newImageFiles).
Proof.
  intros Hread Hclock.
  destruct (readFiles_ids env files Hread [] s) as (new & Hrun & Hids).
  destruct (readFiles_fresh env files [] s (Forall_nil _)) as (Hi & _ & _).
  exists new. split; [|split].
  - unfold exec, handleFileChange, bind.
    destruct (readFiles env files [] s) as [r s1]. cbn [fst snd] in *.
    rewrite Hrun. cbn. rewrite Hi. reflexivity.
  - exact Hids.
  - rewrite Hids. apply stamps_NoDup. assumption.
Qed.

Lemma add_ids_distinct_witness :
  exists newImageFiles : list ImageFile,
    images (exec (handleFileChange Demo.env_ticking
                    (Some [Sample.a_png; Sample.notes_txt; Sample.a_png_again]))
                 (mounted []))
      = newImageFiles
    /\ map id newImageFiles = ["a.png-1000"; "a.png-1001"].
Proof.
  destruct (add_ids_distinct Demo.env_ticking
              [Sample.a_png; Sample.notes_txt; Sample.a_png_again] (mounted []))
    as (new & Himg & Hids & _).
  - intros f _ _. eexists. reflexivity.
  - intros i j H. cbn in H. lia.
  - exists new. split; [exact Himg|exact Hids].
Defined.

Lemma readFiles_rejected (env : Env) (files : list File) (f : File) (e : Thrown) :
  In f files -> Spec.isImage f = true -> readAsDataURL env f = Rejected e ->
  forall (acc : list ImageFile) (s : State),
  exists e' : Thrown, fst (readFiles env files acc s) = Rejected e'.
Proof.
  induction files as [|g files IH]; intros Hin Himg Hf acc s; [destruct Hin|].
  cbn [readFiles]. destruct Hin as [->|Hin].
  - unfold Spec.isImage in Himg. rewrite Himg, Hf. eexists. reflexivity.
  - destruct (Js.startsWith "image/" (type g)); [|apply IH; assumption].
    destruct (readAsDataURL env g) as [dataUrl|e0]; [|eexists; reflexivity].
    unfold bind, next_tick. apply IH; assumption.
Qed.

(** X5.  An upload adds nothing in three cases: given [null] it does
    nothing at all; given files none of which is an image it appends the
    empty list, and the Store is as before; given a list with an image
    file that cannot be read it fails before it writes to the Store, so
    that no file of the list, readable or not, gets a record. *)
Theorem add_nothing (env : Env) (s : State) :
  handleFileChange env None s = (Resolved tt, s)
  /\ (forall files : list File,
         (forall f : File, In f files -> Spec.isImage f = false) ->
         images (exec (handleFileChange env (Some files)) s) = images s
         /\ log (exec (handleFileChange env (Some files)) s)
            = log s ++ [EvAppend []])
  /\ (forall (files : list File) (f : File) (e : Thrown),
         In f files -> Spec.isImage f = true ->
         readAsDataURL env f = Rejected e ->
         images (exec (handleFileChange env (Some files)) s) = images s
         /\ log (exec (handleFileChange env (Some files)) s) = log s
         /\ exists e' : Thrown,
              fst (handleFileChange env (Some files) s) = Rejected e').
Proof.
  split; [reflexivity|split].
  - intros files Hnone.
    assert (Hread : Spec.readable env files).
    { intros f Hin Himg. rewrite (Hnone f Hin) in Himg. discriminate. }
    destruct (readFiles_run env files Hread [] s) as (new & Hrun & Hfiles & _).
    assert (Hnil : filter Spec.isImage files = []).
    { clear - Hnone. induction files as [|f files IH]; [reflexivity|].
      cbn [filter]. rewrite (Hnone f (or_introl eq_refl)).
      apply IH. intros g Hg. apply Hnone. right. assumption. }
    rewrite Hnil in Hfiles. destruct new; [|discriminate].
    unfold exec, handleFileChange, bind. rewrite Hrun. cbn.
    rewrite app_nil_r. split; reflexivity.
  - intros files f e Hin Himg Hf.
    destruct (readFiles_rejected env files f e Hin Himg Hf [] s) as (e' & He').
    destruct (readFiles_fresh env files [] s (Forall_nil _)) as (Hi & Hl & _).
    unfold exec, handleFileChange, bind.
    destruct (readFiles env files [] s) as [r s1]. cbn [fst snd] in *.
    subst r. cbn. repeat split; try assumption. exists e'. reflexivity.
Qed.

Lemma add_nothing_witness :
  images (exec (handleFileChange Sample.env_unreadable
                  (Some [Sample.a_png; Sample.b_jpg]))
               (mounted [Sample.idle_of Sample.readme "999"]))
  = [Sample.idle_of Sample.readme "999"]
  /\ images (exec (handleFileChange Sample.env_ok (Some [Sample.notes_txt]))
                  (mounted []))
     = [].
Proof.
  split.
  - apply (proj2 (proj2 (add_nothing Sample.env_unreadable
                           (mounted [Sample.idle_of Sample.readme "999"])))
             [Sample.a_png; Sample.b_jpg] Sample.b_jpg NotAnError).
    + right. left. reflexivity.
    + reflexivity.
    + reflexivity.
  - apply (proj1 (proj2 (add_nothing Sample.env_ok (mounted [])))
             [Sample.notes_txt]).
    intros f [<-|[]]. reflexivity.
Defined.

(* ================================================================== *)
(** * More on one enhancement *)

(** X6.  An enhancement issues exactly one remote call when the
    credential is configured, whether the call succeeds or fails, and
    none when it is not; the call carries the payload of the original
    data URL of the record the render holds, and the media type of its
    file. *)
Theorem enhancement_request (env : Env) (images_ : list ImageFile) (id_ : string)
    (arriving : list ImageFile) (s : State) (image : ImageFile)
    (mediaType payload : string) :
  Spec.lookup images_ id_ = Some image ->
  originalSrc image = ("data:" ++ mediaType ++ ";base64," ++ payload)%string ->
  Js.lacks "," mediaType = true -> Js.lacks "," payload = true ->
  let s' := exec (enhanceSingleImage env images_ id_ arriving) s in
  exists evs : list Event,
    log s' = log s ++ evs
    /\ Spec.network_calls evs
       = (if Spec.configured env then [(Some payload, type (file image))] else [])
    /\ calls s' = (if Spec.configured env then S (calls s) else calls s).
Proof.
  intros Hl Hsrc Ht Hp s'. unfold s', exec.
  rewrite (enhanceSingleImage_run env images_ id_ arriving s image Hl).
  cbn [snd log calls].
  exists (Spec.single_events env (calls s) id_ image arriving).
  split; [reflexivity|]. split; [|reflexivity].
  rewrite network_calls_single_events, Hsrc, (data_url_payload _ _ Ht Hp).
  reflexivity.
Qed.

Lemma enhancement_request_witness :
  let a := Sample.idle_of Sample.a_png "1000" in
  exists evs : list Event,
    log (exec (enhanceSingleImage Sample.env_recovering [a] (id a) []) (mounted [a]))
      = evs
    /\ Spec.network_calls evs = [(Some "QQ==", "image/png")].
Proof.
  intros a.
  destruct (enhancement_request Sample.env_recovering [a] (id a) [] (mounted [a]) a
              "image/png" "QQ==" eq_refl eq_refl eq_refl eq_refl)
    as (evs & Hlog & Hcalls & _).
  exists evs. split; [exact Hlog|exact Hcalls].
Defined.

(** X7.  When the client returns a payload, every record of the id is
    set to Success with, as enhanced bytes, the data URL made of the media
    type of the uploaded file and of that payload, whatever type the
    service declares for it; this data URL is not empty, and
    [fileToBase64] gives the payload back from it. *)
Theorem enhancement_success (env : Env) (images_ : list ImageFile) (id_ : string)
    (arriving : list ImageFile) (s : State) (image : ImageFile) (payload : string) :
  Spec.lookup images_ id_ = Some image ->
  fst (enhanceImage env arriving
         (fileToBase64 (originalSrc image)) (type (file image)) s)
    = Resolved payload ->
  let s' := exec (enhanceSingleImage env images_ id_ arriving) s in
  let enhanced := ("data:" ++ type (file image) ++ ";base64," ++ payload)%string in
  (forall (k : nat) (r : ImageFile),
      nth_error (images s) k = Some r -> id r = id_ ->
      nth_error (images s') k
      = Some (mkImageFile (id r) (file r) (originalSrc r)
                          (Some enhanced) SUCCESS (error r)))
  /\ Js.truthy enhanced = true
  /\ (Js.lacks "," (type (file image)) = true -> Js.lacks "," payload = true ->
      fileToBase64 enhanced = Some payload).
Proof.
  intros Hl Hout s' enhanced.
  rewrite enhanceImage_run in Hout. cbn [fst] in Hout.
  split; [|split].
  - intros k r Hk Hid. unfold s', exec.
    rewrite (enhanceSingleImage_run env images_ id_ arriving s image Hl).
    cbn [snd images].
    rewrite (single_store_same env (calls s) id_ image arriving (images s) k r Hk Hid).
    unfold Spec.verdict. rewrite Hout. reflexivity.
  - reflexivity.
  - intros Ht Hp. apply data_url_payload; assumption.
Qed.

Lemma enhancement_success_witness :
  let b := Sample.idle_of Sample.b_jpg "1001" in
  nth_error
    (images (exec (enhanceSingleImage Sample.env_ok [b] (id b) []) (mounted [b]))) 0
  = Some (Sample.success_of Sample.b_jpg "1001" "RU5I").
Proof.
  intros b.
  apply (proj1 (enhancement_success Sample.env_ok [b] (id b) [] (mounted [b]) b
                  "RU5I" eq_refl eq_refl) 0 b); reflexivity.
Defined.

Lemma verdict_detail (env : Env) (n : nat) (image : ImageFile) (m : string) :
  Spec.verdict env n image = ToError m ->
  Store.failure_detail m /\ m <> "An unknown error occurred.".
Proof.
  unfold Spec.verdict, Spec.client_outcome, Store.failure_detail.
  destruct (Spec.configured env).
  - destruct (generateContent env n _ _) as [response|[message|]].
    + destruct (first_payload (response_parts response)); [discriminate|].
      intros E. injection E as <-. split; [|discriminate].
      right. right. eexists. reflexivity.
    + intros E. injection E as <-. split; [|discriminate].
      right. right. eexists. reflexivity.
    + intros E. injection E as <-. split; [|discriminate]. auto.
  - intros E. injection E as <-. split; [|discriminate]. auto.
Qed.

Lemma In_single_events_update env n id_ image arriving (i : string) (p : Patch) :
  In (EvUpdate i p) (Spec.single_events env n id_ image arriving) ->
  p = ToEnhancing \/ p = Spec.verdict env n image.
Proof.
  unfold Spec.single_events, Spec.client_events. intros [E|Hin].
  - injection E as _ <-. left. reflexivity.
  - right. apply in_app_or in Hin as [Hin|Hin].
    + exfalso. destruct (Spec.configured env); [|destruct Hin].
      destruct Hin as [E|Hin]; [discriminate|].
      apply in_app_or in Hin as [Hin|Hin].
      * destruct arriving; [destruct Hin|].
        destruct Hin as [E|[]]. discriminate.
      * destruct (Spec.client_outcome env n _ _); [destruct Hin|].
        destruct Hin as [E|[]]. discriminate.
    + apply in_app_or in Hin as [Hin|Hin].
      * exfalso. destruct (Spec.verdict env n image); try destruct Hin as [E|[]];
          try discriminate; destruct Hin.
      * destruct Hin as [E|[]]. injection E as _ <-. reflexivity.
Qed.

Lemma In_batch_events_update env images_ (idleImages : list ImageFile) :
  forall (n : nat) (arrivals : list (list ImageFile)) (i : string) (m : string),
    In (EvUpdate i (ToError m))
       (Spec.batch_events env n images_ idleImages arrivals) ->
    Store.failure_detail m /\ m <> "An unknown error occurred.".
Proof.
  induction idleImages as [|image rest IH]; intros n arrivals i m Hin;
    [destruct Hin|].
  cbn [Spec.batch_events] in Hin.
  destruct (Spec.lookup images_ (id image)) as [found|]; [|apply (IH _ _ _ _ Hin)].
  apply in_app_or in Hin as [Hin|Hin]; [|apply (IH _ _ _ _ Hin)].
  apply In_single_events_update in Hin as [E|E]; [discriminate|].
  apply (verdict_detail env n found). symmetry. assumption.
Qed.

(** X8.  The error detail an enhancement writes, alone or in a batch, is
    the message about the missing credential, or "An unknown error
    occurred during image enhancement.", or "Failed to enhance image: "
    followed by a cause; it is never "An unknown error occurred.", the
    message [enhanceSingleImage] keeps for a thrown value that is not an
    [Error]: the client throws nothing but [Error]s. *)
Theorem error_detail_shape (env : Env) (s : State) :
  (forall (images_ : list ImageFile) (id_ : string) (arriving : list ImageFile),
      exists evs : list Event,
        log (exec (enhanceSingleImage env images_ id_ arriving) s) = log s ++ evs
        /\ forall (i m : string),
             In (EvUpdate i (ToError m)) evs ->
             Store.failure_detail m /\ m <> "An unknown error occurred.")
  /\ (forall arrivals : list (list ImageFile),
         exists evs : list Event,
           log (exec (clickEnhanceAll env arrivals) s) = log s ++ evs
           /\ forall (i m : string),
                In (EvUpdate i (ToError m)) evs ->
                Store.failure_detail m /\ m <> "An unknown error occurred.").
Proof.
  split.
  - intros images_ id_ arriving. unfold exec.
    destruct (Spec.lookup images_ id_) as [image|] eqn:Hl.
    + rewrite (enhanceSingleImage_run env images_ id_ arriving s image Hl).
      eexists. split; [reflexivity|].
      intros i m Hin. apply In_single_events_update in Hin as [E|E]; [discriminate|].
      apply (verdict_detail env (calls s) image). symmetry. assumption.
    + rewrite (enhanceSingleImage_missing env images_ id_ arriving s Hl).
      exists []. cbn [snd]. rewrite app_nil_r. split; [reflexivity|].
      intros i m [].
  - intros arrivals. unfold exec, clickEnhanceAll. rewrite enhanceAllImages_run.
    eexists. split; [reflexivity|].
    intros i m [E|Hin]; [discriminate|].
    apply in_app_or in Hin as [Hin|[E|[]]]; [|discriminate].
    apply (In_batch_events_update env _ _ _ _ _ _ Hin).
Qed.

(* ================================================================== *)
(** * More on the batch *)

Lemma core_apply_patch (p : Patch) (r : ImageFile) :
  Store.core (apply_patch p r) = Store.core r.
Proof. destruct p; reflexivity. Qed.

Lemma core_patch_where (i : string) (p : Patch) (l : list ImageFile) :
  map Store.core (patch_where i p l) = map Store.core l.
Proof.
  unfold patch_where. rewrite map_map. apply map_ext.
  intros r. destruct (String.eqb (id r) i); [apply core_apply_patch|reflexivity].
Qed.

Lemma core_single_store env n id_ image arriving (store : list ImageFile) :
  map Store.core (Spec.single_store env n id_ image arriving store)
  = map Store.core store ++ map Store.core (Spec.in_flight env arriving).
Proof.
  unfold Spec.single_store.
  rewrite core_patch_where, map_app, core_patch_where. reflexivity.
Qed.

Lemma core_batch_store env images_ (idleImages : list ImageFile) :
  forall (n : nat) (arrivals : list (list ImageFile)) (store : list ImageFile),
    map Store.core (Spec.batch_store env n images_ idleImages arrivals store)
    = map Store.core store
      ++ map Store.core
           (Spec.appended (Spec.batch_events env n images_ idleImages arrivals)).
Proof.
  induction idleImages as [|image rest IH]; intros n arrivals store.
  - cbn. rewrite app_nil_r. reflexivity.
  - cbn [Spec.batch_store Spec.batch_events].
    destruct (Spec.lookup images_ (id image)); [|apply IH].
    rewrite IH, core_single_store, appended_app, appended_single_events,
      map_app, app_assoc. reflexivity.
Qed.

Lemma appended_batch_incl env images_ (idleImages : list ImageFile) :
  forall (n : nat) (arrivals : list (list ImageFile)) (r : ImageFile),
    In r (Spec.appended (Spec.batch_events env n images_ idleImages arrivals)) ->
    In r (List.concat arrivals).
Proof.
  induction idleImages as [|image rest IH]; intros n arrivals r Hin;
    [destruct Hin|].
  cbn [Spec.batch_events] in Hin.
  assert (Htl : forall x, In x (List.concat (tl arrivals)) -> In x (List.concat arrivals)).
  { intros x Hx. destruct arrivals; [assumption|].
    cbn [List.concat]. apply in_or_app. right. assumption. }
  destruct (Spec.lookup images_ (id image)); [|apply Htl, (IH _ _ _ Hin)].
  rewrite appended_app, appended_single_events in Hin.
  apply in_app_or in Hin as [Hin|Hin]; [|apply Htl, (IH _ _ _ Hin)].
  unfold Spec.in_flight in Hin. destruct (Spec.configured env); [|destruct Hin].
  destruct arrivals; [destruct Hin|].
  cbn [List.concat]. apply in_or_app. left. assumption.
Qed.

Lemma appended_batch_quiet env images_ (idleImages : list ImageFile) :
  forall n : nat,
    Spec.appended (Spec.batch_events env n images_ idleImages []) = [].
Proof.
  intros n.
  destruct (Spec.appended (Spec.batch_events env n images_ idleImages []))
    as [|r l] eqn:E; [reflexivity|].
  assert (Hin : In r (List.concat [])).
  { apply (appended_batch_incl env images_ idleImages n []).
    rewrite E. left. reflexivity. }
  destruct Hin.
Qed.

(** X9.  A batch never removes, moves or rewrites the source of a
    record: at its end the Store holds, in place, records with the ids,
    files and original data URLs it held at the start, followed by the
    records uploaded meanwhile, in the order of their upload. *)
Theorem batch_keeps_sources (env : Env) (arrivals : list (list ImageFile))
    (s : State) :
  let s' := exec (clickEnhanceAll env arrivals) s in
  exists evs : list Event,
    log s' = log s ++ evs
    /\ map Store.core (images s')
       = map Store.core (images s) ++ map Store.core (Spec.appended evs)
    /\ (forall r : ImageFile, In r (Spec.appended evs) -> In r (List.concat arrivals))
    /\ List.length (images s')
       = List.length (images s) + List.length (Spec.appended evs).
Proof.
  intros s'. unfold s', exec, clickEnhanceAll. rewrite enhanceAllImages_run.
  cbn [snd log images].
  set (idleImages := filter isIdle (images s)).
  set (evs := Spec.batch_events env (calls s) (images s) idleImages arrivals).
  exists (EvIsProcessing true :: evs ++ [EvIsProcessing false]).
  assert (Happ : Spec.appended (EvIsProcessing true :: evs ++ [EvIsProcessing false])
                 = Spec.appended evs).
  { change (Spec.appended (EvIsProcessing true :: ?l)) with (Spec.appended l).
    rewrite appended_app. cbn. apply app_nil_r. }
  rewrite Happ.
  assert (Hcore := core_batch_store env (images s) idleImages (calls s) arrivals
                     (images s)).
  fold evs in Hcore.
  split; [reflexivity|]. split; [exact Hcore|]. split.
  - intros r Hin. apply (appended_batch_incl env _ _ _ _ _ Hin).
  - apply (f_equal (@List.length _)) in Hcore.
    rewrite length_app, !length_map in Hcore. exact Hcore.
Qed.

Lemma batch_store_length_quiet env images_ (idleImages store : list ImageFile)
    (n : nat) :
  List.length (Spec.batch_store env n images_ idleImages [] store)
  = List.length store.
Proof.
  pose proof (core_batch_store env images_ idleImages n [] store) as H.
  rewrite appended_batch_quiet in H. cbn in H. rewrite app_nil_r in H.
  apply (f_equal (@List.length _)) in H. rewrite !length_map in H. exact H.
Qed.

(** No record that was in the Store at the start of a batch is Idle at
    its end. *)
Lemma batch_store_not_idle env (store : list ImageFile)
    (arrivals : list (list ImageFile)) (n k : nat) (r : ImageFile) :
  nth_error (Spec.batch_store env n store (filter isIdle store) arrivals store) k
    = Some r ->
  isIdle r = true ->
  List.length store <= k.
Proof.
  intros Hk Hidle.
  destruct (Nat.le_gt_cases (List.length store) k) as [Hle|Hlt]; [assumption|].
  exfalso.
  destruct (nth_error store k) as [r0|] eqn:H0;
    [|apply nth_error_None in H0; lia].
  destruct (in_dec string_dec (id r0) (map id (filter isIdle store))) as [Hin|Hnot].
  - destruct (batch_store_terminal env store (filter isIdle store)
                (idle_known store) n arrivals store k r0 H0 Hin)
      as (r' & Hk' & _ & _ & _ & Ht).
    rewrite Hk in Hk'. injection Hk' as <-.
    unfold isIdle in Hidle. destruct Ht as [Ht|Ht]; rewrite Ht in Hidle; discriminate.
  - rewrite (batch_store_other env store (filter isIdle store) n arrivals store
               k r0 H0 Hnot) in Hk.
    injection Hk as <-. apply Hnot. apply in_map. apply filter_In.
    split; [apply (nth_error_In _ _ H0)|assumption].
Qed.

Lemma filter_nil_iff (A : Type) (f : A -> bool) (l : list A) :
  (forall x : A, In x l -> f x = false) -> filter f l = [].
Proof.
  induction l as [|a l IH]; intros H; [reflexivity|].
  cbn [filter]. rewrite (H a (or_introl eq_refl)).
  apply IH. intros x Hx. apply H. right. assumption.
Qed.

(** X10.  At the end of a batch no record that was in the Store at its
    start is Idle: the only Idle records left are records uploaded during
    the run; when nothing is uploaded meanwhile, nothing is left to
    enhance, and the "Enhance All" button is disabled. *)
Theorem batch_leaves_no_idle (env : Env) (arrivals : list (list ImageFile))
    (s : State) :
  let s' := exec (clickEnhanceAll env arrivals) s in
  (forall (k : nat) (r : ImageFile),
      nth_error (images s') k = Some r -> isIdle r = true ->
      List.length (images s) <= k)
  /\ (arrivals = [] ->
      View.idleImageCount (images s') = 0
      /\ View.enhanceAllDisabled s' = true
      /\ List.length (images s') = List.length (images s)).
Proof.
  intros s'.
  assert (Himg : images s'
                 = Spec.batch_store env (calls s) (images s)
                     (filter isIdle (images s)) arrivals (images s)).
  { unfold s', exec, clickEnhanceAll. rewrite enhanceAllImages_run. reflexivity. }
  split.
  - intros k r Hk Hidle. rewrite Himg in Hk.
    apply (batch_store_not_idle env _ _ _ _ _ Hk Hidle).
  - intros ->.
    assert (Hlen : List.length (images s') = List.length (images s)).
    { rewrite Himg. apply batch_store_length_quiet. }
    assert (Hnone : filter isIdle (images s') = []).
    { apply filter_nil_iff. intros r Hin.
      destruct (isIdle r) eqn:Hidle; [|reflexivity]. exfalso.
      apply In_nth_error in Hin as (k & Hk).
      assert (Hlt : k < List.length (images s'))
        by (apply nth_error_Some; congruence).
      rewrite Himg in Hk.
      pose proof (batch_store_not_idle env _ _ _ _ _ Hk Hidle). lia. }
    unfold View.enhanceAllDisabled, View.idleImageCount. rewrite Hnone.
    cbn. rewrite orb_true_r. auto.
Qed.

Lemma batch_leaves_no_idle_witness :
  let a := Sample.idle_of Sample.a_png "1000" in
  let b := Sample.idle_of Sample.b_jpg "1001" in
  View.enhanceAllDisabled (exec (clickEnhanceAll Sample.env_flaky []) (mounted [a; b]))
  = true.
Proof.
  intros a b.
  apply (proj2 (batch_leaves_no_idle Sample.env_flaky [] (mounted [a; b])) eq_refl).
Defined.

(** X11.  A batch over a Store without Idle record only writes the
    processing flag, true then false: it touches no record and makes no
    remote call; and such is the Store a batch leaves when nothing is
    uploaded meanwhile, so that a second batch right after the first
    sends nothing. *)
Theorem batch_without_idle (env : Env) (s : State) :
  ((forall r : ImageFile, In r (images s) -> isIdle r = false) ->
   forall arrivals : list (list ImageFile),
     let s' := exec (clickEnhanceAll env arrivals) s in
     images s' = images s
     /\ log s' = log s ++ [EvIsProcessing true; EvIsProcessing false]
     /\ calls s' = calls s)
  /\ (forall arrivals : list (list ImageFile),
        let s1 := exec (clickEnhanceAll env []) s in
        let s2 := exec (clickEnhanceAll env arrivals) s1 in
        images s2 = images s1
        /\ log s2 = log s1 ++ [EvIsProcessing true; EvIsProcessing false]
        /\ calls s2 = calls s1).
Proof.
  assert (Hquiet : forall s0 : State,
            filter isIdle (images s0) = [] ->
            forall arrivals,
              let s' := exec (clickEnhanceAll env arrivals) s0 in
              images s' = images s0
              /\ log s' = log s0 ++ [EvIsProcessing true; EvIsProcessing false]
              /\ calls s' = calls s0).
  { intros s0 Hnone arrivals s'. unfold s', exec, clickEnhanceAll.
    rewrite enhanceAllImages_run, Hnone. cbn. auto. }
  split.
  - intros Hnone arrivals. apply Hquiet. apply filter_nil_iff. assumption.
  - intros arrivals. apply Hquiet.
    assert (Himg : images (exec (clickEnhanceAll env []) s)
                   = Spec.batch_store env (calls s) (images s)
                       (filter isIdle (images s)) [] (images s)).
    { unfold exec, clickEnhanceAll. rewrite enhanceAllImages_run. reflexivity. }
    apply filter_nil_iff. intros r Hin.
    destruct (isIdle r) eqn:Hidle; [|reflexivity]. exfalso.
    apply In_nth_error in Hin as (k & Hk).
    assert (Hlt : k < List.length (images (exec (clickEnhanceAll env []) s)))
      by (apply nth_error_Some; congruence).
    rewrite Himg in Hk, Hlt. rewrite batch_store_length_quiet in Hlt.
    pose proof (batch_store_not_idle env _ _ _ _ _ Hk Hidle). lia.
Qed.

Lemma batch_without_idle_witness :
  let b := Sample.success_of Sample.b_jpg "1001" "RU5I" in
  log (exec (clickEnhanceAll Sample.env_ok []) (mounted [b]))
  = [EvIsProcessing true; EvIsProcessing false].
Proof.
  intros b.
  apply (proj1 (batch_without_idle Sample.env_ok (mounted [b]))).
  intros r [<-|[]]. reflexivity.
Defined.

(* ================================================================== *)
(** * Success records have their bytes *)

Lemma has_bytes_verdict (env : Env) (n : nat) (image r : ImageFile) :
  Store.has_bytes (apply_patch (Spec.verdict env n image) r).
Proof.
  unfold Store.has_bytes, Spec.verdict.
  destruct (Spec.client_outcome env n _ _) as [payload|[message|]]; cbn;
    intros H; try discriminate; reflexivity.
Qed.

Lemma has_bytes_patch_where (env : Env) (n : nat) (image : ImageFile)
    (i : string) (p : Patch) (l : list ImageFile) :
  p = ToEnhancing \/ p = Spec.verdict env n image ->
  Forall Store.has_bytes l -> Forall Store.has_bytes (patch_where i p l).
Proof.
  intros Hp Hl. apply Forall_forall. intros r Hr.
  rewrite Forall_forall in Hl.
  apply In_patch_where in Hr as (r0 & Hin & [(_ & ->)|(_ & ->)]); [|auto].
  destruct Hp as [->| ->]; [|apply has_bytes_verdict].
  intros H. discriminate.
Qed.

Lemma has_bytes_single_store env n id_ image arriving (store : list ImageFile) :
  Forall Store.has_bytes store -> Forall Store.has_bytes arriving ->
  Forall Store.has_bytes (Spec.single_store env n id_ image arriving store).
Proof.
  intros Hs Ha. unfold Spec.single_store.
  apply (has_bytes_patch_where env n image); [right; reflexivity|].
  apply Forall_app. split.
  - apply (has_bytes_patch_where env n image); [left; reflexivity|assumption].
  - unfold Spec.in_flight. destruct (Spec.configured env); [assumption|constructor].
Qed.

Lemma has_bytes_batch_store env images_ (idleImages : list ImageFile) :
  forall (n : nat) (arrivals : list (list ImageFile)) (store : list ImageFile),
    Forall Store.has_bytes store ->
    Forall (Forall Store.has_bytes) arrivals ->
    Forall Store.has_bytes (Spec.batch_store env n images_ idleImages arrivals store).
Proof.
  induction idleImages as [|image rest IH]; intros n arrivals store Hs Ha;
    [assumption|].
  assert (Htl : Forall (Forall Store.has_bytes) (tl arrivals)).
  { destruct arrivals; [constructor|]. inversion Ha; assumption. }
  assert (Hhd : Forall Store.has_bytes (hd [] arrivals)).
  { destruct arrivals; [constructor|]. inversion Ha; assumption. }
  cbn [Spec.batch_store].
  destruct (Spec.lookup images_ (id image)); apply IH; try assumption.
  apply has_bytes_single_store; assumption.
Qed.

Lemma fresh_has_bytes (r : ImageFile) : Spec.fresh r -> Store.has_bytes r.
Proof. intros (Hs & _) H. rewrite Hs in H. discriminate. Qed.

(** X12.  Every handler keeps this: a record whose status is Success has
    non-empty enhanced bytes.  It holds after an upload, after an
    enhancement of any id (be its records Idle or not), after a batch
    (be the ids distinct or not), and after an archive build. *)
Theorem success_has_bytes_kept (env : Env) (s : State) :
  Forall Store.has_bytes (images s) ->
  (forall files : option (list File),
      Forall Store.has_bytes (images (exec (handleFileChange env files) s)))
  /\ (forall (images_ : list ImageFile) (id_ : string) (arriving : list ImageFile),
         Forall Store.has_bytes arriving ->
         Forall Store.has_bytes
                (images (exec (enhanceSingleImage env images_ id_ arriving) s)))
  /\ (forall arrivals : list (list ImageFile),
         Forall (Forall Store.has_bytes) arrivals ->
         Forall Store.has_bytes (images (exec (clickEnhanceAll env arrivals) s)))
  /\ Forall Store.has_bytes (images (exec (clickDownloadAll env) s)).
Proof.
  intros Hs. split; [|split; [|split]].
  - intros files. unfold exec, handleFileChange.
    destruct files as [files|]; [|exact Hs].
    unfold bind.
    destruct (readFiles_fresh env files [] s (Forall_nil _)) as (Hi & _ & Hf).
    destruct (readFiles env files [] s) as [[new|e] s1]; cbn [fst snd] in *.
    + unfold commitImages, bind, emit, setImages, ret. cbn [fst snd images].
      rewrite Hi. apply Forall_app. split; [exact Hs|].
      eapply Forall_impl; [|exact Hf]. apply fresh_has_bytes.
    + unfold ret. cbn [snd]. rewrite Hi. exact Hs.
  - intros images_ id_ arriving Ha. unfold exec.
    destruct (Spec.lookup images_ id_) as [image|] eqn:Hl.
    + rewrite (enhanceSingleImage_run env images_ id_ arriving s image Hl).
      cbn [snd images]. apply has_bytes_single_store; assumption.
    + rewrite (enhanceSingleImage_missing env images_ id_ arriving s Hl). exact Hs.
  - intros arrivals Ha. unfold exec, clickEnhanceAll.
    rewrite enhanceAllImages_run. cbn [snd images].
    apply has_bytes_batch_store; assumption.
  - unfold exec, clickDownloadAll.
    pose proof (handleDownloadAll_run env (images s) s) as Hrun. cbv zeta in Hrun.
    rewrite Hrun. destruct (filter isSuccessful (images s)); exact Hs.
Qed.

Lemma success_has_bytes_kept_witness :
  Forall Store.has_bytes
    (images (exec (clickEnhanceAll Sample.env_flaky [])
               (exec (handleFileChange Sample.env_flaky
                        (Some [Sample.a_png; Sample.a_png_again]))
                     (mounted [])))).
Proof.
  assert (H0 : Forall Store.has_bytes (images (mounted []))) by constructor.
  pose proof (proj1 (success_has_bytes_kept Sample.env_flaky (mounted []) H0)
                (Some [Sample.a_png; Sample.a_png_again])) as H1.
  apply (proj1 (proj2 (proj2 (success_has_bytes_kept Sample.env_flaky _ H1))) []).
  constructor.
Defined.

(* ================================================================== *)
(** * What the page shows *)

Lemma successful_is_success (l : list ImageFile) :
  Forall Store.has_bytes l -> filter isSuccessful l = filter View.isSuccess l.
Proof.
  intros H. apply filter_ext_in. intros r Hin.
  rewrite Forall_forall in H. specialize (H r Hin).
  unfold isSuccessful, View.isSuccess, Store.has_bytes in *.
  destruct (status r); cbn; try reflexivity.
  rewrite (H eq_refl). reflexivity.
Qed.

(** X13.  On a Store whose Success records have their bytes, the count
    shown on "Download All" is the number of records the archive build
    works on, and when that button is enabled a click does start a
    build: it sets the zipping flag and fetches the enhanced bytes of the
    first Success record. *)
Theorem download_all_enabled (env : Env) (s : State) :
  Forall Store.has_bytes (images s) ->
  View.successfulImageCount (images s)
  = List.length (filter isSuccessful (images s))
  /\ (View.downloadAllDisabled s = false ->
      exists (first : ImageFile) (src : string) (evs : list Event),
        hd_error (filter View.isSuccess (images s)) = Some first
        /\ enhancedSrc first = Some src
        /\ log (exec (clickDownloadAll env) s)
           = log s ++ EvIsZipping true :: EvFetch src :: evs).
Proof.
  intros Hs. pose proof (successful_is_success (images s) Hs) as Heq.
  split.
  - unfold View.successfulImageCount. rewrite Heq. reflexivity.
  - intros Hen. unfold View.downloadAllDisabled, View.successfulImageCount in Hen.
    apply orb_false_iff in Hen as [_ Hen]. rewrite <- Heq in *.
    unfold exec, clickDownloadAll.
    pose proof (handleDownloadAll_run env (images s) s) as Hrun. cbv zeta in Hrun.
    rewrite Hrun.
    destruct (filter isSuccessful (images s)) as [|first rest] eqn:E;
      [discriminate|].
    assert (Hfirst : isSuccessful first = true).
    { assert (Hin : In first (filter isSuccessful (images s)))
        by (rewrite E; left; reflexivity).
      apply filter_In in Hin. tauto. }
    unfold isSuccessful in Hfirst. apply andb_true_iff in Hfirst as [_ Hfirst].
    destruct (enhancedSrc first) as [src|] eqn:Hsrc; [|discriminate].
    exists first, src. eexists. split; [reflexivity|]. split; [exact Hsrc|].
    cbn [snd log Spec.fetch_events]. rewrite Hsrc. cbn [Js.truthy_opt] in *.
    rewrite Hfirst. reflexivity.
Qed.

Lemma download_all_enabled_witness :
  let a := Sample.idle_of Sample.a_png "1000" in
  let b := Sample.success_of Sample.b_jpg "1001" "RU5I" in
  View.successfulImageCount [a; b] = 1
  /\ exists evs : list Event,
       log (exec (clickDownloadAll Sample.env_ok) (mounted [a; b]))
       = EvIsZipping true :: EvFetch "data:image/jpeg;base64,RU5I" :: evs.
Proof.
  intros a b.
  assert (Hs : Forall Store.has_bytes (images (mounted [a; b]))).
  { repeat constructor; intros H; try discriminate; reflexivity. }
  destruct (download_all_enabled Sample.env_ok (mounted [a; b]) Hs) as (Hcount & Hen).
  split; [exact Hcount|].
  destruct (Hen eq_refl) as (first & src & evs & Hfirst & Hsrc & Hlog).
  cbn in Hfirst. injection Hfirst as <-. cbn in Hsrc. injection Hsrc as <-.
  exists evs. exact Hlog.
Defined.

(** X14.  A card shows, beside the original image, exactly one thing for
    a record whose Success comes with its bytes: "Ready to enhance" when
    Idle, the spinner when Enhancing, the failure and its detail when
    Error, the comparison slider when Success; its Download button is
    there exactly when the status is Success, and a click on it then
    downloads the enhanced bytes under the name of the card.  A Success
    record without bytes would get an empty panel and a button that does
    nothing. *)
Theorem card_view (image : ImageFile) :
  (Store.has_bytes image ->
   List.length (View.body image) = 1
   /\ View.body image
      = match status image with
        | IDLE => [View.Ready]
        | ENHANCING => [View.Spinner]
        | ERROR => [View.Failure (error image)]
        | SUCCESS =>
            match enhancedSrc image with
            | Some src => [View.Slider (originalSrc image) src]
            | None => []
            end
        end)
  /\ (View.foot image = [View.DownloadButton] <-> status image = SUCCESS)
  /\ (Store.has_bytes image -> status image = SUCCESS ->
      forall s : State,
      exists src : string,
        enhancedSrc image = Some src
        /\ log (exec (handleDownload image) s)
           = log s ++ [EvDownload (Card.download image) src])
  /\ (status image = SUCCESS -> Js.truthy_opt (enhancedSrc image) = false ->
      View.body image = []
      /\ forall s : State, exec (handleDownload image) s = s).
Proof.
  split; [|split; [|split]].
  - intros Hb. unfold View.body, View.isSuccess, Store.has_bytes in *.
    destruct (status image) eqn:Hs; cbn; try (split; reflexivity).
    rewrite (Hb eq_refl).
    destruct (enhancedSrc image); [split; reflexivity|].
    specialize (Hb eq_refl). discriminate.
  - unfold View.foot, View.isSuccess.
    destruct (status image); cbn; split; intros H; try discriminate; reflexivity.
  - intros Hb Hs s. specialize (Hb Hs).
    destruct (enhancedSrc image) as [src|] eqn:Hsrc; [|discriminate].
    exists src. split; [reflexivity|].
    apply handleDownload_log; assumption.
  - intros Hs Hno. split.
    + unfold View.body, View.isSuccess. rewrite Hs, Hno. reflexivity.
    + intros s. unfold exec, handleDownload.
      destruct (enhancedSrc image) as [src|]; [|reflexivity].
      cbn in Hno. rewrite Hno. reflexivity.
Qed.

Lemma card_view_witness :
  let b := Sample.success_of Sample.b_jpg "1001" "RU5I" in
  View.body b = [View.Slider "data:image/jpeg;base64,Qg==" "data:image/jpeg;base64,RU5I"]
  /\ exists src : string,
       log (exec (handleDownload b) (mounted [b]))
       = [EvDownload "b-enhanced.jpg" src].
Proof.
  intros b.
  assert (Hb : Store.has_bytes b) by (intros _; reflexivity).
  destruct (card_view b) as (Hbody & _ & Hclick & _).
  split; [exact (proj2 (Hbody Hb))|].
  destruct (Hclick Hb eq_refl (mounted [b])) as (src & _ & Hlog).
  exists src. exact Hlog.
Defined.

(* ================================================================== *)
(** * More on the archive *)

Lemma fetches_app (a b : list Event) :
  Store.fetches (a ++ b) = Store.fetches a ++ Store.fetches b.
Proof. apply flat_map_app. Qed.

Lemma reports_app (a b : list Event) :
  Store.reports (a ++ b) = Store.reports a ++ Store.reports b.
Proof. apply flat_map_app. Qed.

Lemma successful_src (r : ImageFile) :
  isSuccessful r = true ->
  exists src : string, enhancedSrc r = Some src /\ Js.truthy src = true.
Proof.
  unfold isSuccessful. intros H. apply andb_true_iff in H as [_ H].
  destruct (enhancedSrc r) as [src|]; [|discriminate].
  exists src. split; [reflexivity|exact H].
Qed.

Section Fetches.

Variable env : Env.

Lemma fetch_events_prefix (imgs : list ImageFile) :
  Forall (fun r => isSuccessful r = true) imgs ->
  exists k : nat,
    Store.fetches (Spec.fetch_events env imgs) = firstn k (Store.sources imgs)
    /\ Spec.fetch_events env imgs
       = map EvFetch (Store.fetches (Spec.fetch_events env imgs)).
Proof.
  induction 1 as [|r rest Hr _ IH]; [exists 0; split; reflexivity|].
  destruct (successful_src r Hr) as (src & Hsrc & Ht).
  cbn [Spec.fetch_events Store.sources flat_map]. rewrite Hsrc.
  cbn [Js.truthy_opt]. rewrite Ht.
  destruct (fetch env src) as [blob|e].
  - destruct IH as (k & Hk & Hmap). exists (S k). split.
    + cbn. f_equal. exact Hk.
    + cbn. f_equal. exact Hmap.
  - exists 1. split; reflexivity.
Qed.

Lemma fetch_events_all (imgs : list ImageFile) :
  Forall (fun r => isSuccessful r = true) imgs ->
  Store.fetchable env imgs ->
  Spec.fetch_events env imgs = map EvFetch (Store.sources imgs)
  /\ forall zip : list (string * string),
       exists zip' : list (string * string),
         Spec.zip_entries env imgs zip = Resolved zip'.
Proof.
  induction 1 as [|r rest Hr _ IH]; intros Hf.
  - split; [reflexivity|]. intros zip. exists zip. reflexivity.
  - destruct (successful_src r Hr) as (src & Hsrc & Ht).
    destruct (Hf r src (or_introl eq_refl) Hsrc) as (blob & Hb).
    destruct IH as (IHe & IHz).
    { intros x u Hin. apply Hf. right. assumption. }
    cbn [Spec.fetch_events Spec.zip_entries Store.sources flat_map].
    rewrite Hsrc. cbn [Js.truthy_opt]. rewrite Ht, Hb. split.
    + cbn. f_equal. exact IHe.
    + intros zip. apply IHz.
Qed.

Lemma fetch_events_fail_fast (pre post : list ImageFile) (r : ImageFile)
    (src : string) (e : Thrown) :
  Forall (fun x => isSuccessful x = true) pre ->
  Store.fetchable env pre ->
  enhancedSrc r = Some src -> Js.truthy src = true ->
  fetch env src = Rejected e ->
  Spec.fetch_events env (pre ++ r :: post)
  = map EvFetch (Store.sources pre ++ [src])
  /\ forall zip : list (string * string),
       Spec.zip_entries env (pre ++ r :: post) zip = Rejected e.
Proof.
  intros Hpre. revert post. induction Hpre as [|p pre Hp _ IH];
    intros post Hf Hsrc Ht He.
  - cbn [app Spec.fetch_events Spec.zip_entries Store.sources flat_map].
    rewrite Hsrc. cbn [Js.truthy_opt]. rewrite Ht, He. split; reflexivity.
  - destruct (successful_src p Hp) as (u & Hu & Htu).
    destruct (Hf p u (or_introl eq_refl) Hu) as (blob & Hb).
    destruct (IH post) as (IHe & IHz); try assumption.
    { intros x v Hin. apply Hf. right. assumption. }
    cbn [app Spec.fetch_events Spec.zip_entries Store.sources flat_map].
    rewrite Hu. cbn [Js.truthy_opt]. rewrite Htu, Hb. split.
    + cbn. f_equal. exact IHe.
    + intros zip. apply IHz.
Qed.

End Fetches.

Lemma packaging_events_no_fetch (env : Env) (imgs : list ImageFile) :
  Store.fetches (Spec.packaging_events env imgs) = [].
Proof.
  unfold Spec.packaging_events.
  destruct (Spec.zip_entries env imgs []) as [zip|e]; [|reflexivity].
  destruct (generateAsync env zip); reflexivity.
Qed.

Lemma fetches_map_EvFetch (urls : list string) :
  Store.fetches (map EvFetch urls) = urls.
Proof. induction urls as [|u urls IH]; cbn; [reflexivity|]. f_equal. exact IH. Qed.

Lemma successful_all (l : list ImageFile) :
  Forall (fun r => isSuccessful r = true) (filter isSuccessful l).
Proof. apply Forall_forall. intros r Hr. apply filter_In in Hr. tauto. Qed.

(** X15.  An archive build fetches enhanced bytes of Success records
    only, in the order of the Store and each at most once: its fetches
    are a prefix of the enhanced sources of the Success records.  It
    stops at the first fetch that fails: the records after it are not
    fetched, nothing is packaged and nothing is downloaded. *)
Theorem archive_fetches (env : Env) (s : State) :
  let successfulImages := filter isSuccessful (images s) in
  let s' := exec (clickDownloadAll env) s in
  exists evs : list Event,
    log s' = log s ++ evs
    /\ (exists k : nat,
           Store.fetches evs = firstn k (Store.sources successfulImages))
    /\ (forall (pre post : list ImageFile) (r : ImageFile) (src : string) (e : Thrown),
           successfulImages = pre ++ r :: post ->
           (forall (p : ImageFile) (u : string),
               In p pre -> enhancedSrc p = Some u ->
               exists blob : string, fetch env u = Resolved blob) ->
           enhancedSrc r = Some src ->
           fetch env src = Rejected e ->
           Store.fetches evs = Store.sources pre ++ [src]
           /\ Spec.packagings evs = []
           /\ Spec.downloads evs = []).
Proof.
  intros successfulImages s'. unfold s', exec, clickDownloadAll.
  pose proof (handleDownloadAll_run env (images s) s) as Hrun.
  cbv zeta in Hrun. fold successfulImages in Hrun. rewrite Hrun.
  pose proof (successful_all (images s)) as Hall. fold successfulImages in Hall.
  destruct successfulImages as [|a rest] eqn:E.
  - exists []. cbn [snd]. rewrite app_nil_r. split; [reflexivity|]. split.
    + exists 0. reflexivity.
    + intros pre post r src e Hsplit. destruct pre; discriminate.
  - rewrite <- E in *. cbn [snd log]. eexists. split; [reflexivity|].
    assert (Hf : Store.fetches
                   (EvIsZipping true :: Spec.fetch_events env successfulImages ++
                      Spec.packaging_events env successfulImages ++ [EvIsZipping false])
                 = Store.fetches (Spec.fetch_events env successfulImages)).
    { change (Store.fetches (EvIsZipping true :: ?l)) with (Store.fetches l).
      rewrite !fetches_app, packaging_events_no_fetch. cbn. apply app_nil_r. }
    rewrite Hf. split.
    + destruct (fetch_events_prefix env successfulImages Hall) as (k & Hk & _).
      exists k. exact Hk.
    + intros pre post r src e Hsplit Hpre Hsrc He.
      assert (Hr : isSuccessful r = true).
      { rewrite Forall_forall in Hall. apply Hall. rewrite Hsplit.
        apply in_or_app. right. left. reflexivity. }
      destruct (successful_src r Hr) as (src' & Hsrc' & Ht).
      rewrite Hsrc in Hsrc'. injection Hsrc' as <-.
      assert (Hallpre : Forall (fun x => isSuccessful x = true) pre).
      { rewrite Hsplit in Hall. apply Forall_app in Hall. tauto. }
      destruct (fetch_events_fail_fast env pre post r src e Hallpre Hpre Hsrc Ht He)
        as (Hev & Hz).
      rewrite Hsplit. rewrite Hev, fetches_map_EvFetch. split; [reflexivity|].
      unfold Spec.packaging_events. rewrite Hz.
      change (Spec.packagings (EvIsZipping true :: ?l)) with (Spec.packagings l).
      change (Spec.downloads (EvIsZipping true :: ?l)) with (Spec.downloads l).
      rewrite packagings_app, downloads_app.
      assert (Hp : forall urls, Spec.packagings (map EvFetch urls) = []
                                /\ Spec.downloads (map EvFetch urls) = []).
      { induction urls as [|u urls [IH1 IH2]]; cbn; auto. }
      destruct (Hp (Store.sources pre ++ [src])) as [-> ->]. split; reflexivity.
Qed.

Lemma archive_fetches_witness :
  let a := Sample.success_of Sample.a_png "1000" "RU5I" in
  let b := Sample.success_of Sample.b_jpg "1001" "RU5I" in
  let c := Sample.success_of Sample.readme "1002" "RU5I" in
  exists evs : list Event,
    log (exec (clickDownloadAll Demo.env_second_fetch_fails) (mounted [a; b; c])) = evs
    /\ Store.fetches evs
       = ["data:image/png;base64,RU5I"; "data:image/jpeg;base64,RU5I"]
    /\ Spec.downloads evs = [].
Proof.
  intros a b c.
  destruct (archive_fetches Demo.env_second_fetch_fails (mounted [a; b; c]))
    as (evs & Hlog & _ & Hfail).
  destruct (Hfail [a] [c] b "data:image/jpeg;base64,RU5I" (JsError "Failed to fetch"))
    as (Hf & _ & Hd); try reflexivity.
  - intros p u [<-|[]] Hu. cbn in Hu. injection Hu as <-. eexists. reflexivity.
  - exists evs. split; [exact Hlog|]. split; [exact Hf|exact Hd].
Defined.

(** X16.  When every fetch and the packaging succeed, an archive build
    fetches the enhanced bytes of each Success record, in the order of
    the Store, packages once and triggers exactly one download, named
    [enhanced-images.zip], of what the packaging gave; it reports no
    error and leaves the zipping flag false. *)
Theorem archive_success (env : Env) (s : State)
    (zip : list (string * string)) (content_ : string) :
  let successfulImages := filter isSuccessful (images s) in
  let s' := exec (clickDownloadAll env) s in
  successfulImages <> [] ->
  (forall (r : ImageFile) (u : string),
      In r successfulImages -> enhancedSrc r = Some u ->
      exists blob : string, fetch env u = Resolved blob) ->
  fst (zipEach env successfulImages [] s) = Resolved zip ->
  generateAsync env zip = Resolved content_ ->
  log s' = log s ++ EvIsZipping true ::
             map EvFetch (Store.sources successfulImages) ++
             [EvGenerateAsync zip;
              EvDownload "enhanced-images.zip" content_;
              EvIsZipping false]
  /\ isZipping s' = false
  /\ images s' = images s.
Proof.
  intros successfulImages s' Hne Hf Hzip Hgen. unfold s', exec, clickDownloadAll.
  pose proof (handleDownloadAll_run env (images s) s) as Hrun.
  cbv zeta in Hrun. fold successfulImages in Hrun. rewrite Hrun.
  pose proof (successful_all (images s)) as Hall. fold successfulImages in Hall.
  rewrite zipEach_run in Hzip. cbn [fst] in Hzip.
  destruct (fetch_events_all env successfulImages Hall Hf) as (Hev & _).
  destruct successfulImages as [|a rest] eqn:E; [contradiction|].
  rewrite <- E in *. cbn [snd log isZipping images].
  unfold Spec.packaging_events. rewrite Hzip, Hgen, Hev.
  repeat split.
Qed.

Lemma archive_success_witness :
  let a := Sample.success_of Sample.a_png "1000" "RU5I" in
  let idle := Sample.idle_of Sample.readme "1002" in
  log (exec (clickDownloadAll Sample.env_ok) (mounted [idle; a]))
  = [EvIsZipping true; EvFetch "data:image/png;base64,RU5I";
     EvGenerateAsync [("a-enhanced.png", "data:image/png;base64,RU5I")];
     EvDownload "enhanced-images.zip" "PK"; EvIsZipping false].
Proof.
  intros a idle.
  apply (proj1 (archive_success Sample.env_ok (mounted [idle; a])
                  [("a-enhanced.png", "data:image/png;base64,RU5I")] "PK"
                  ltac:(discriminate)
                  ltac:(intros r u _ _; eexists; reflexivity)
                  eq_refl eq_refl)).
Defined.

(* ================================================================== *)
(** * The entries of the archive *)

Lemma zip_file_In (n b : string) (z : list (string * string)) (x y : string) :
  In (x, y) (zip_file n b z) -> (x, y) = (n, b) \/ In (x, y) z.
Proof.
  induction z as [|[m c] z IH]; cbn [zip_file].
  - intros [E|[]]. left. symmetry. exact E.
  - destruct (String.eqb m n).
    + intros [E|Hin]; [left; symmetry; exact E|right; right; exact Hin].
    + intros [E|Hin]; [right; left; exact E|].
      destruct (IH Hin) as [E|Hz]; [left; exact E|right; right; exact Hz].
Qed.

Lemma zip_file_names (n b : string) (z : list (string * string)) (x : string) :
  In x (map fst (zip_file n b z)) -> x = n \/ In x (map fst z).
Proof.
  intros Hin. apply in_map_iff in Hin as ([x' y] & Hx & Hin). cbn in Hx. subst x'.
  apply zip_file_In in Hin as [E|Hin].
  - left. congruence.
  - right. apply in_map_iff. exists (x, y). split; [reflexivity|exact Hin].
Qed.

Lemma zip_file_NoDup (n b : string) (z : list (string * string)) :
  NoDup (map fst z) -> NoDup (map fst (zip_file n b z)).
Proof.
  induction z as [|[m c] z IH]; cbn [zip_file map fst]; intros H.
  - constructor; [intros []|constructor].
  - inversion H as [|? ? Hnotin Hnodup]; subst.
    destruct (String.eqb m n) eqn:E.
    + apply String.eqb_eq in E. subst m. cbn [map fst]. constructor; assumption.
    + apply String.eqb_neq in E. cbn [map fst]. constructor; [|apply IH; assumption].
      intros Hin. apply zip_file_names in Hin as [Hm|Hm]; [congruence|contradiction].
Qed.

Lemma zip_file_length (n b : string) (z : list (string * string)) :
  List.length (zip_file n b z) <= S (List.length z).
Proof.
  induction z as [|[m c] z IH]; cbn [zip_file List.length]; [lia|].
  destruct (String.eqb m n); cbn [List.length]; lia.
Qed.

Lemma zip_file_fresh (n b : string) (z : list (string * string)) :
  ~ In n (map fst z) -> zip_file n b z = z ++ [(n, b)].
Proof.
  induction z as [|[m c] z IH]; cbn [zip_file map fst]; intros H; [reflexivity|].
  destruct (String.eqb m n) eqn:E.
  - apply String.eqb_eq in E. exfalso. apply H. left. exact E.
  - cbn [app]. f_equal. apply IH. intros Hin. apply H. right. exact Hin.
Qed.

Lemma zip_entries_facts (env : Env) (imgs : list ImageFile) :
  Forall (fun r => isSuccessful r = true) imgs ->
  forall acc zip : list (string * string),
    Spec.zip_entries env imgs acc = Resolved zip ->
    (NoDup (map fst acc) -> NoDup (map fst zip))
    /\ List.length zip <= List.length acc + List.length imgs
    /\ (forall n b : string,
           In (n, b) zip ->
           In (n, b) acc
           \/ exists (r : ImageFile) (src : string),
                In r imgs /\ n = Archive.entry r
                /\ enhancedSrc r = Some src /\ fetch env src = Resolved b)
    /\ (NoDup (map fst acc ++ map Archive.entry imgs) ->
        zip = acc ++ Store.entries_of env imgs).
Proof.
  induction 1 as [|r rest Hr _ IH]; intros acc zip Hz.
  - cbn in Hz. injection Hz as <-. repeat split; try (cbn; lia); auto.
    intros _. cbn. rewrite app_nil_r. reflexivity.
  - destruct (successful_src r Hr) as (src & Hsrc & Ht).
    cbn [Spec.zip_entries] in Hz. rewrite Hsrc in Hz.
    cbn [Js.truthy_opt] in Hz. rewrite Ht in Hz.
    destruct (fetch env src) as [blob|e] eqn:Hf; [|discriminate].
    destruct (IH _ _ Hz) as (Hnd & Hlen & Hin & Heq).
    split; [|split; [|split]].
    + intros Hacc. apply Hnd. apply zip_file_NoDup. assumption.
    + pose proof (zip_file_length (Archive.entry r) blob acc). cbn [List.length]. lia.
    + intros n b Hnb. destruct (Hin n b Hnb) as [Hacc|(x & u & Hx & Hn & Hu & Hb)].
      * apply zip_file_In in Hacc as [E|Hacc]; [|left; assumption].
        injection E as -> ->. right. exists r, src.
        split; [left; reflexivity|]. repeat split; assumption.
      * right. exists x, u. split; [right; assumption|]. repeat split; assumption.
    + intros Hnodup. cbn [map] in Hnodup.
      assert (Hfresh : ~ In (Archive.entry r) (map fst acc)).
      { intros Hacc. apply NoDup_remove_2 in Hnodup. apply Hnodup.
        apply in_or_app. left. assumption. }
      rewrite (zip_file_fresh _ blob acc Hfresh) in Heq.
      rewrite Heq.
      * rewrite <- app_assoc. cbn [app Store.entries_of flat_map].
        rewrite Hsrc, Hf. reflexivity.
      * rewrite map_app, <- app_assoc. exact Hnodup.
Qed.

Lemma before_last_keeps_lacks (c d : ascii) (s : string) :
  Js.lacks c s = true -> Js.lacks c (Spec.before_last d s) = true.
Proof.
  induction s as [|x s IH]; cbn [Spec.before_last Js.lacks]; [reflexivity|].
  intros H. apply andb_true_iff in H as [Hx Hs].
  destruct (Js.lacks d s); [reflexivity|].
  cbn [Js.lacks]. rewrite Hx, (IH Hs). reflexivity.
Qed.

(** A file name without "/" gives an entry name without "/". *)
Lemma entry_lacks_slash (image : ImageFile) :
  Js.lacks "/" (name (file image)) = true ->
  Js.lacks "/" (Archive.entry image) = true.
Proof.
  intros H. rewrite Archive_entry_spec. unfold Spec.enhanced_name, Spec.basename.
  destruct (spec_extension_facts (type (file image))) as (_ & _ & Hext).
  rewrite lacks_app, (before_last_keeps_lacks "/" "." _ H).
  cbn. exact Hext.
Qed.

(** X17.  When no Success record has a "/" in its file name, no entry
    name of the archive holds a "/" (so that [zip.file] adds no folder),
    the archive never holds two entries of the same name, and it holds at
    most one entry per Success record, each under the name and with the
    fetched bytes of such a record; when moreover the entry names of the
    Success records are distinct, the entries are exactly theirs, in the
    order of the Store.  (Success records whose names coincide share one
    entry: [zip.file] keeps one entry per name.) *)
Theorem archive_entries (env : Env) (s : State) (zip : list (string * string)) :
  let successfulImages := filter isSuccessful (images s) in
  (forall r : ImageFile,
      In r successfulImages -> Js.lacks "/" (name (file r)) = true) ->
  fst (zipEach env successfulImages [] s) = Resolved zip ->
  (forall n b : string, In (n, b) zip -> Js.lacks "/" n = true)
  /\ NoDup (map fst zip)
  /\ List.length zip <= List.length successfulImages
  /\ (forall n b : string,
         In (n, b) zip ->
         exists (r : ImageFile) (src : string),
           In r successfulImages /\ n = Archive.entry r
           /\ enhancedSrc r = Some src /\ fetch env src = Resolved b)
  /\ (NoDup (map Archive.entry successfulImages) ->
      zip = Store.entries_of env successfulImages).
Proof.
  intros successfulImages Hslash Hz. rewrite zipEach_run in Hz. cbn [fst] in Hz.
  destruct (zip_entries_facts env successfulImages (successful_all (images s))
              [] zip Hz) as (Hnd & Hlen & Hin & Heq).
  assert (Hfrom : forall n b : string,
            In (n, b) zip ->
            exists (r : ImageFile) (src : string),
              In r successfulImages /\ n = Archive.entry r
              /\ enhancedSrc r = Some src /\ fetch env src = Resolved b).
  { intros n b Hnb. destruct (Hin n b Hnb) as [[]|H]. exact H. }
  split; [|split; [apply Hnd; constructor|split; [exact Hlen|split]]].
  - intros n b Hnb. destruct (Hfrom n b Hnb) as (r & src & Hr & -> & _).
    apply entry_lacks_slash. apply Hslash. exact Hr.
  - exact Hfrom.
  - intros Hnodup. apply Heq. exact Hnodup.
Qed.

Lemma archive_entries_witness :
  let a := Sample.success_of Sample.a_png "1000" "RU5I" in
  let twin := Sample.success_of Sample.a_png_again "1001" "T1RI" in
  let zip := [("a-enhanced.png", "data:image/png;base64,T1RI")] in
  fst (zipEach Sample.env_ok [a; twin] [] (mounted [a; twin])) = Resolved zip
  /\ NoDup (map fst zip)
  /\ List.length zip <= 2.
Proof.
  intros a twin zip.
  destruct (archive_entries Sample.env_ok (mounted [a; twin]) zip) as (_ & Hnd & Hlen & _).
  - intros r [<-|[<-|[]]]; reflexivity.
  - reflexivity.
  - split; [reflexivity|]. split; [exact Hnd|exact Hlen].
Defined.

(* ================================================================== *)
(** * Records that share an id *)









